(** * aiogoogle: the client orchestrator and the abstract session contract

    A shallow embedding of [aiogoogle/client.py] (class [Aiogoogle]) and of
    [aiogoogle/sessions/abc.py] (class [AbstractSession]).

    The orchestrator is stateful Python: every [async def] becomes a
    computation in a state-and-exception monad over the attributes of
    [self], the state of the outside world (clock, network, transport) and
    a chronological log of the calls made to collaborators.  The
    collaborators that [client.py] imports but that are defined elsewhere
    (the credential managers, the session, the discovery service's two
    methods) are the fields of one interface, [Collaborators]. *)

From Stdlib Require Import ZArith Lia.
From stdpp Require Import base option list strings gmap.

Local Open Scope string_scope.
Set Warnings "-register-all".

(** ** Python values and exceptions *)

(** Decoded response content, API names and versions are dynamically typed
    in the source; [Value] is the fragment of Python data they range over. *)
Inductive Value : Type :=
| VNone
| VBool (b : bool)
| VInt (z : Z)
| VStr (s : string)
| VList (items : list Value)
| VDict (entries : list (string * Value)).

Inductive Exc : Type :=
| TypeError (msg : string)
| ValueError (msg : string)
| RuntimeError (msg : string)
| KeyError (key : Value)
| IndexError (msg : string)
| AttributeError (msg : string)
| HTTPError (msg : string)
| AuthError (msg : string).

Module Py.

(** [bool(v)]: what an [if v:] tests. *)
Definition truthy (v : Value) : bool :=
  match v with
  | VNone => false
  | VBool b => b
  | VInt z => negb (Z.eqb z 0)
  | VStr s => negb (String.eqb s "")
  | VList items => match items with [] => false | _ => true end
  | VDict entries => match entries with [] => false | _ => true end
  end.

Fixpoint assoc (k : string) (entries : list (string * Value)) : option Value :=
  match entries with
  | [] => None
  | (k', v) :: rest => if String.eqb k k' then Some v else assoc k rest
  end.

(** [v[k]] for a string key [k]. *)
Definition getitem_str (v : Value) (k : string) : Exc + Value :=
  match v with
  | VDict entries =>
      match assoc k entries with
      | Some x => inr x
      | None => inl (KeyError (VStr k))
      end
  | VList _ => inl (TypeError "list indices must be integers or slices, not str")
  | VStr _ => inl (TypeError "string indices must be integers")
  | _ => inl (TypeError "object is not subscriptable")
  end.

(** [v[0]]. *)
Definition getitem_0 (v : Value) : Exc + Value :=
  match v with
  | VList items =>
      match items with
      | x :: _ => inr x
      | [] => inl (IndexError "list index out of range")
      end
  | VStr s =>
      match s with
      | String c _ => inr (VStr (String c EmptyString))
      | EmptyString => inl (IndexError "string index out of range")
      end
  | VDict _ => inl (KeyError (VInt 0))
  | _ => inl (TypeError "object is not subscriptable")
  end.

End Py.

(** ** The collaborators of [client.py]

    [World] is everything outside the orchestrator that a collaborator may
    read or change: the clock that [is_expired] compares against, the token
    endpoint, the transport.  A collaborator that suspends on I/O takes the
    world and returns the next one; one that may raise returns [Exc + _]. *)
Module Export Interface.

Class Collaborators : Type := {
World : Type;
UserCreds : Type;
ClientCreds : Type;
ApiKey : Type;
Request : Type;
Session : Type;
(** [bool(user_creds)], the test made by [user_creds or self.user_creds]. *)
user_creds_truthy : UserCreds → bool;
(** [Oauth2Manager.is_expired], [.refresh], [.authorize]. *)
oauth2_is_expired : UserCreds → World → bool;
oauth2_refresh : UserCreds → option ClientCreds → World → (Exc + UserCreds) * World;
oauth2_authorize : Request → UserCreds → Request;
(** [ApiKeyManager.authorize]. *)
api_key_authorize : Request → ApiKey → Request;
(** [self.session_factory()] and the session's [send], [__aenter__], [__aexit__]. *)
session_factory : World → (Exc + Session) * World;
session_send : Session → list Request → option Z → bool → World → (Exc + Value) * World;
session_aenter : Session → World → (Exc + unit) * World;
session_aexit : Session → World → (Exc + unit) * World;
(** [self.discovery_service.apis.list] and [.apis.getRest]. *)
apis_list : Value → Value → Value → Exc + Request;
apis_getRest : Value → Value → bool → Exc + Request;
}.

End Interface.

(** Modelled from the spec: [GoogleAPI] of [resource.py], which is not among
    the sources; the orchestrator only constructs it from a discovery
    document and the validation flag. *)
Record GoogleAPI : Type := mkGoogleAPI {
  discovery_document : Value;
  validate_flag : bool;
}.

Declare Scope async_scope.

Section Client.
Context `{C : Collaborators}.

(** *** The log of calls to collaborators *)
Inductive Event : Type :=
| EvApisList (name preferred fields : Value)
| EvApisGetRest (api version : Value) (validate : bool)
| EvRefresh (uc : UserCreds) (cc : option ClientCreds)
| EvOauth2Authorize (r : Request) (uc : UserCreds)
| EvApiKeyAuthorize (r : Request) (k : ApiKey)
| EvSessionFactory (res : Exc + Session)
| EvSessionEnter (s : Session)
| EvSessionExit (s : Session)
| EvSessionSend (s : Session) (reqs : list Request) (timeout : option Z) (full_res : bool).

(** *** The attributes of an [Aiogoogle] instance *)
Record Aiogoogle : Type := mkAiogoogle {
  active_session : option Session;
  api_key : option ApiKey;
  user_creds : option UserCreds;
  client_creds : option ClientCreds;
}.

(** [Aiogoogle.__init__]. *)
Definition __init__ (api_key : option ApiKey) (user_creds : option UserCreds)
    (client_creds : option ClientCreds) : Aiogoogle :=
  {| active_session := None;
     api_key := api_key;
     user_creds := user_creds;
     client_creds := client_creds |}.

Record St : Type := mkSt {
  self : Aiogoogle;
  world : World;
  trace : list Event;
}.

(** *** The monad of the [async def]s *)
Definition M (A : Type) : Type := St → (Exc + A) * St.

Definition ret {A} (x : A) : M A := λ st, (inr x, st).

Definition bind {A B} (m : M A) (f : A → M B) : M B := λ st,
  match m st with
  | (inr x, st') => f x st'
  | (inl e, st') => (inl e, st')
  end.

Notation "x ← y ; z" := (bind y (λ x, z))
  (at level 20, y at level 100, z at level 200, only parsing) : async_scope.
Notation "x ;; z" := (bind x (λ _, z))
  (at level 100, z at level 200, only parsing, right associativity) : async_scope.
Local Open Scope async_scope.

Definition raise {A} (e : Exc) : M A := λ st, (inl e, st).

Definition log (e : Event) : M unit := λ st,
  (inr tt, {| self := self st; world := world st; trace := trace st ++ [e] |}).

Definition get_self : M Aiogoogle := λ st, (inr (self st), st).

Definition put_self (a : Aiogoogle) : M unit := λ st,
  (inr tt, {| self := a; world := world st; trace := trace st |}).

Definition read_world {A} (f : World → A) : M A := λ st, (inr (f (world st)), st).

(** A call that suspends on the outside world. *)
Definition io {A} (f : World → (Exc + A) * World) : M A := λ st,
  let '(r, w) := f (world st) in
  (r, {| self := self st; world := w; trace := trace st |}).

Definition lift {A} (r : Exc + A) : M A := λ st, (r, st).

Definition set_active_session (s : option Session) (a : Aiogoogle) : Aiogoogle :=
  {| active_session := s; api_key := api_key a;
     user_creds := user_creds a; client_creds := client_creds a |}.

Definition set_user_creds (uc : option UserCreds) (a : Aiogoogle) : Aiogoogle :=
  {| active_session := active_session a; api_key := api_key a;
     user_creds := uc; client_creds := client_creds a |}.

(** *** [_ensure_session_set], [send], [__aenter__], [__aexit__] *)

Definition _ensure_session_set : M unit :=
  a ← get_self;
  match active_session a with
  | None =>
      s ← (λ st,
             let '(r, w) := session_factory (world st) in
             (r, {| self := self st; world := w;
                    trace := trace st ++ [EvSessionFactory r] |}));
      a ← get_self;
      put_self (set_active_session (Some s) a)
  | Some _ => ret tt
  end.

(** [send]: the positional arguments are the requests; the keyword
    [session_factory] that the entry points forward is
    [self.session_factory] itself. *)
Definition send (requests : list Request) (timeout : option Z) (full_res : bool)
    : M Value :=
  _ensure_session_set;;
  a ← get_self;
  match active_session a with
  | Some s =>
      log (EvSessionSend s requests timeout full_res);;
      io (session_send s requests timeout full_res)
  | None => raise (AttributeError "'NoneType' object has no attribute 'send'")
  end.

Definition __aenter__ : M unit :=
  _ensure_session_set;;
  a ← get_self;
  match active_session a with
  | Some s => log (EvSessionEnter s);; io (session_aenter s)
  | None => raise (AttributeError "'NoneType' object has no attribute '__aenter__'")
  end.

Definition __aexit__ : M unit :=
  a ← get_self;
  match active_session a with
  | Some s => log (EvSessionExit s);; io (session_aexit s)
  | None => raise (AttributeError "'NoneType' object has no attribute '__aexit__'")
  end.

(** *** The three dispatch entry points *)

(** [x or y] on an optional credential. *)
Definition py_or (x y : option UserCreds) : option UserCreds :=
  match x with
  | Some c => if user_creds_truthy c then Some c else y
  | None => y
  end.

(** The list comprehension [[authorize(request, cred) for request in requests]]. *)
Fixpoint authorize_all {K} (ev : Request → K → Event) (auth : Request → K → Request)
    (k : K) (requests : list Request) : M (list Request) :=
  match requests with
  | [] => ret []
  | r :: rest =>
      log (ev r k);;
      rs ← authorize_all ev auth k rest;
      ret (auth r k :: rs)
  end.

Definition as_user (requests : list Request) (timeout : option Z) (full_res : bool)
    (user_creds_arg : option UserCreds) : M Value :=
  a ← get_self;
  match py_or user_creds_arg (user_creds a) with
  | None => raise (TypeError "No user credentials were found")
  | Some uc =>
      expired ← read_world (oauth2_is_expired uc);
      uc ← (if expired then
              a ← get_self;
              log (EvRefresh uc (client_creds a));;
              uc' ← io (oauth2_refresh uc (client_creds a));
              a ← get_self;
              match user_creds a with
              | Some _ => put_self (set_user_creds (Some uc') a)
              | None => ret tt
              end;;
              ret uc'
            else ret uc);
      authorized_requests ← authorize_all EvOauth2Authorize oauth2_authorize uc requests;
      send authorized_requests timeout full_res
  end.

Definition as_api_key (requests : list Request) (timeout : option Z) (full_res : bool)
    (api_key_arg : option ApiKey) : M Value :=
  a ← get_self;
  match api_key a with
  | None => raise (TypeError "No API key found")
  | Some k =>
      authorized_requests ← authorize_all EvApiKeyAuthorize api_key_authorize k requests;
      send authorized_requests timeout full_res
  end.

Definition as_anon (requests : list Request) (timeout : option Z) (full_res : bool)
    : M Value :=
  send requests timeout full_res.

(** *** The discovery service's two methods *)

Definition list_api (name preferred fields : Value) : M Value :=
  log (EvApisList name preferred fields);;
  request ← lift (apis_list name preferred fields);
  as_anon [request] None false.

Definition discover (api_name api_version : Value) (validate : bool) : M GoogleAPI :=
  nv ← match api_version with
       | VNone =>
           discovery_list ← list_api api_name (VBool true) VNone;
           items ← lift (Py.getitem_str discovery_list "items");
           if Py.truthy items then
             first ← lift (Py.getitem_0 items);
             name ← lift (Py.getitem_str first "name");
             first ← lift (Py.getitem_0 items);
             version ← lift (Py.getitem_str first "version");
             ret (name, version)
           else raise (ValueError "Invalid API name")
       | _ => ret (api_name, api_version)
       end;
  log (EvApisGetRest nv.1 nv.2 false);;
  request ← lift (apis_getRest nv.1 nv.2 false);
  discovery_docuemnt ← as_anon [request] None false;
  ret (mkGoogleAPI discovery_docuemnt validate).

(** *** A caller's sequence of calls on one instance

    An exception raised by a call reaches the caller, who keeps the
    instance: the next call starts from the state the failed one left. *)
Inductive Call : Type :=
| CallAsUser (requests : list Request) (timeout : option Z) (full_res : bool)
    (user_creds_arg : option UserCreds)
| CallAsApiKey (requests : list Request) (timeout : option Z) (full_res : bool)
    (api_key_arg : option ApiKey)
| CallAsAnon (requests : list Request) (timeout : option Z) (full_res : bool)
| CallListApi (name preferred fields : Value)
| CallDiscover (api_name api_version : Value) (validate : bool)
| CallAenter
| CallAexit.

Definition run_call (c : Call) (st : St) : St :=
  match c with
  | CallAsUser requests timeout full_res arg => (as_user requests timeout full_res arg st).2
  | CallAsApiKey requests timeout full_res arg => (as_api_key requests timeout full_res arg st).2
  | CallAsAnon requests timeout full_res => (as_anon requests timeout full_res st).2
  | CallListApi name preferred fields => (list_api name preferred fields st).2
  | CallDiscover api_name api_version validate => (discover api_name api_version validate st).2
  | CallAenter => (__aenter__ st).2
  | CallAexit => (__aexit__ st).2
  end.

Definition run_calls (cs : list Call) (st : St) : St := foldl (λ st c, run_call c st) st cs.

(** *** Reading the log *)

Definition is_refresh (e : Event) : bool :=
  match e with EvRefresh _ _ => true | _ => false end.

Definition is_authorize (e : Event) : bool :=
  match e with EvOauth2Authorize _ _ | EvApiKeyAuthorize _ _ => true | _ => false end.

Definition is_getRest (e : Event) : bool :=
  match e with EvApisGetRest _ _ _ => true | _ => false end.

(** The session a successful factory call returned. *)
Definition created_session (e : Event) : option Session :=
  match e with EvSessionFactory (inr s) => Some s | _ => None end.

(** The session an event was performed on. *)
Definition event_session (e : Event) : option Session :=
  match e with
  | EvSessionEnter s | EvSessionExit s | EvSessionSend s _ _ _ => Some s
  | _ => None
  end.

(** The state [st] after the events [evs] were logged. *)
Definition logged (st : St) (evs : list Event) : St :=
  {| self := self st; world := world st; trace := trace st ++ evs |}.

(** [self] after a successful refresh to [uc']. *)
Definition refreshed_self (uc' : UserCreds) (a : Aiogoogle) : Aiogoogle :=
  match user_creds a with
  | Some _ => set_user_creds (Some uc') a
  | None => a
  end.

(** *** The three entry points as one *)
Inductive EntryPoint : Type :=
| ByIdentity (user_creds_arg : option UserCreds)
| ByKey (api_key_arg : option ApiKey)
| Anonymous.

Definition dispatch (ep : EntryPoint) (requests : list Request) (timeout : option Z)
    (full_res : bool) : M Value :=
  match ep with
  | ByIdentity arg => as_user requests timeout full_res arg
  | ByKey arg => as_api_key requests timeout full_res arg
  | Anonymous => as_anon requests timeout full_res
  end.


(** Events that the dispatch primitive [send] itself logs. *)
Definition is_transport (e : Event) : bool :=
  match e with EvSessionFactory _ | EvSessionSend _ _ _ _ => true | _ => false end.

(** From [st] to [st'] the session was created lazily and at most once:
    a session that was set stays, a session is created only when none was
    set, and whatever was done on a session was done on the one that is
    set at the end. *)
Definition session_step (st st' : St) : Prop :=
  ∃ evs : list Event, trace st' = (trace st ++ evs)%list ∧
    match active_session (self st) with
    | Some s => active_session (self st') = Some s ∧ omap created_session evs = []
    | None => omap created_session evs = option_list (active_session (self st'))
    end ∧
    ∀ s, s ∈ omap event_session evs → active_session (self st') = Some s.

(** A computation that only appends to the log, and only events in [P]. *)
Definition emits {A} (P : Event → Prop) (m : M A) : Prop :=
  ∀ st, ∃ evs : list Event, trace (m st).2 = (trace st ++ evs)%list ∧ Forall P evs.

(** A computation all of whose runs are such steps. *)
Definition steps {A} (m : M A) : Prop := ∀ st, session_step st (m st).2.

End Client.

(** ** [sessions/abc.py]: the construction-time check of [AbstractSession] *)
Module abc.

(** What [inspect] and an f-string see of a class attribute. *)
Record Member : Type := mkMember {
  repr : string;
  iscoroutinefunction : bool;
}.

(** The attributes that the body of [AbstractSession] defines, in the
    name order of [dir]; those it inherits from [ABC] and [object] are no
    coroutine functions. *)
Definition AbstractSession_members : list (string * Member) :=
  [ ("__new__", mkMember "<function AbstractSession.__new__>" false);
    ("send", mkMember "<function AbstractSession.send>" true) ].

(** [inspect.getmembers(obj, predicate)] on a class given by its members. *)
Definition getmembers (members : list (string * Member)) (predicate : Member → bool)
    : list (string * Member) :=
  filter (λ nm, predicate nm.2 = true) members.

(** A subclass of [AbstractSession]: the namespaces of the classes that
    precede [AbstractSession] in its method resolution order, nearest first. *)
Record PyClass : Type := mkPyClass {
  cls_name : string;
  namespaces : list (gmap string Member);
}.

Fixpoint lookup_mro (name : string) (nss : list (gmap string Member)) : option Member :=
  match nss with
  | [] => None
  | ns :: rest =>
      match ns !! name with
      | Some m => Some m
      | None => lookup_mro name rest
      end
  end.

(** [getattr(cls, name)]. *)
Definition getattr (cls : PyClass) (name : string) : Exc + Member :=
  match lookup_mro name (namespaces cls) with
  | Some m => inr m
  | None =>
      match (list_to_map AbstractSession_members : gmap string Member) !! name with
      | Some m => inr m
      | None => inl (AttributeError name)
      end
  end.

Section New.
(** [super(AbstractSession, cls).__new__], the constructor that Python
    itself provides, over whatever arguments and instances are. *)
Context {Args Instance : Type}.
Variable super_new : PyClass → Args → Exc + Instance.

(** The [for coro in parent_abstract_coros] loop. *)
Fixpoint check_coros (cls : PyClass) (coros : list (string * Member)) : Exc + unit :=
  match coros with
  | [] => inr tt
  | coro :: rest =>
      let coro_name := coro.1 in
      match getattr cls coro_name with
      | inl e => inl e
      | inr child_method =>
          if iscoroutinefunction child_method then check_coros cls rest
          else inl (RuntimeError (repr child_method ++ " must be a coroutine"))
      end
  end.

Definition __new__ (cls : PyClass) (args : Args) : Exc + Instance :=
  let parent_abstract_coros := getmembers AbstractSession_members iscoroutinefunction in
  match check_coros cls parent_abstract_coros with
  | inl e => inl e
  | inr _ => super_new cls args
  end.
End New.

End abc.

(** ** Concrete collaborators

    Modelled from the spec: the credential value objects, the two credential
    managers, a discovery service and a canned transport, none of which is
    among the sources.  They instantiate [Collaborators] wherever a property
    is evaluated on concrete data. *)
Module Demo.

Record UserCreds : Type := mkUserCreds {
  access_token : string;
  refresh_token : option string;
  expires_at : Z;
  scopes : list string;
}.

Record ClientCreds : Type := mkClientCreds {
  client_id : string;
  client_secret : string;
}.

Record Request : Type := mkRequest {
  method : string;
  url : string;
  headers : list (string * string);
  params : list (string * string);
}.

(** The clock, and how many sessions the factory has handed out. *)
Record World : Type := mkWorld {
  now : Z;
  sessions_made : nat;
}.

(** Seconds before hard expiry at which a token already counts as expired. *)
Definition margin : Z := 60.

Definition is_expired (uc : UserCreds) (w : World) : bool :=
  (expires_at uc <=? now w + margin)%Z.

Definition refresh (uc : UserCreds) (cc : option ClientCreds) (w : World)
    : (Exc + UserCreds) * World :=
  match refresh_token uc, cc with
  | Some _, Some _ =>
      (inr {| access_token := "refreshed-" ++ access_token uc;
              refresh_token := refresh_token uc;
              expires_at := (now w + 3600)%Z;
              scopes := scopes uc |}, w)
  | _, _ => (inl (AuthError "refresh rejected"), w)
  end.

Definition oauth2_authorize (r : Request) (uc : UserCreds) : Request :=
  {| method := method r; url := url r;
     headers := ("Authorization", "Bearer " ++ access_token uc) :: headers r;
     params := params r |}.

Definition api_key_authorize (r : Request) (k : string) : Request :=
  {| method := method r; url := url r; headers := headers r;
     params := ("key", k) :: params r |}.

Definition factory (w : World) : (Exc + nat) * World :=
  (inr (sessions_made w), {| now := now w; sessions_made := S (sessions_made w) |}).

Definition directory_url : string := "https://www.googleapis.com/discovery/v1/apis".
Definition youtube_rest_url : string :=
  "https://www.googleapis.com/discovery/v1/apis/youtube/v3/rest".

Definition youtube_item : Value :=
  VDict [("name", VStr "youtube"); ("version", VStr "v3"); ("preferred", VBool true)].

(** The canned body the transport answers a request with. *)
Definition respond (r : Request) : Value :=
  if String.eqb (url r) directory_url then
    match params r with
    | ("name", "youtube") :: _ => VDict [("items", VList [youtube_item])]
    | _ => VDict [("items", VList [])]
    end
  else if String.eqb (url r) youtube_rest_url then
    VDict [("name", VStr "youtube"); ("version", VStr "v3")]
  else VDict [("echo", VStr (url r))].

(** A transport that answers a batch with the list of its answers; with
    [unwrap_single], a batch of one with the bare answer. *)
Definition transport_send (unwrap_single : bool) (s : nat) (reqs : list Request)
    (timeout : option Z) (full_res : bool) (w : World) : (Exc + Value) * World :=
  match reqs with
  | [r] => if unwrap_single then (inr (respond r), w) else (inr (VList [respond r]), w)
  | _ => (inr (VList (map respond reqs)), w)
  end.

Definition apis_list (name preferred fields : Value) : Exc + Request :=
  match name with
  | VStr n => inr {| method := "GET"; url := directory_url; headers := [];
                     params := [("name", n)] |}
  | _ => inl (ValueError "name must be a string")
  end.

Definition apis_getRest (api version : Value) (validate : bool) : Exc + Request :=
  match api, version with
  | VStr a, VStr v =>
      inr {| method := "GET"; url := directory_url ++ "/" ++ a ++ "/" ++ v ++ "/rest";
             headers := []; params := [] |}
  | _, _ => if validate then inl (ValueError "api and version must be strings")
            else inr {| method := "GET"; url := directory_url; headers := []; params := [] |}
  end.

Definition collaborators (unwrap_single : bool) : Collaborators :=
  {| Interface.World := World;
     Interface.UserCreds := UserCreds;
     Interface.ClientCreds := ClientCreds;
     ApiKey := string;
     Interface.Request := Request;
     Session := nat;
     user_creds_truthy := λ _, true;
     oauth2_is_expired := is_expired;
     oauth2_refresh := refresh;
     Interface.oauth2_authorize := oauth2_authorize;
     Interface.api_key_authorize := api_key_authorize;
     session_factory := factory;
     session_send := transport_send unwrap_single;
     session_aenter := λ _ w, (inr tt, w);
     session_aexit := λ _ w, (inr tt, w);
     Interface.apis_list := apis_list;
     Interface.apis_getRest := apis_getRest |}.

Definition alice : UserCreds :=
  {| access_token := "alice-token"; refresh_token := Some "alice-refresh";
     expires_at := 1000; scopes := ["email"] |}.

Definition bob : UserCreds :=
  {| access_token := "bob-token"; refresh_token := Some "bob-refresh";
     expires_at := 9000; scopes := ["email"] |}.

Definition client : ClientCreds := {| client_id := "id"; client_secret := "secret" |}.

Definition get (u : string) : Request :=
  {| method := "GET"; url := u; headers := []; params := [] |}.

(** The clock reads 2000: [alice]'s token has expired, [bob]'s has not. *)
Definition world0 : World := {| now := 2000; sessions_made := 0 |}.

End Demo.

(** Orchestrators over the concrete collaborators, at the moment [Demo.world0]. *)
Module Scenario.

(** A transport that answers a batch of one with the bare answer. *)
Definition unwrapping : Collaborators := Demo.collaborators true.
(** A transport that always answers with a list. *)
Definition listing : Collaborators := Demo.collaborators false.

(** A freshly constructed orchestrator, nothing logged yet. *)
Definition fresh (C : Collaborators) (api_key : option (@ApiKey C))
    (user_creds : option (@UserCreds C)) (client_creds : option (@ClientCreds C))
    (w : @World C) : @St C :=
  {| self := __init__ api_key user_creds client_creds; world := w; trace := [] |}.

Definition resource : Demo.Request := Demo.get "https://example.org/resource".

(** [Demo.alice] after [Demo.refresh] at [Demo.world0]. *)
Definition alice_refreshed : Demo.UserCreds :=
  {| Demo.access_token := "refreshed-alice-token";
     Demo.refresh_token := Some "alice-refresh";
     Demo.expires_at := 5600;
     Demo.scopes := ["email"] |}.

End Scenario.

(** ** Further readings of the log and of [self] *)
Section Readings.
Context `{C : Collaborators}.

Definition is_send (e : Event) : bool :=
  match e with EvSessionSend _ _ _ _ => true | _ => false end.

(** How many batches were handed to a session. *)
Fixpoint sends (evs : list Event) : nat :=
  match evs with
  | [] => 0
  | e :: rest => (if is_send e then 1 else 0) + sends rest
  end.

(** A computation that hands at most [n] batches to a session, and exactly
    [n] whenever it returns. *)
Definition sends_n {A} (n : nat) (m : M A) : Prop :=
  ∀ st, ∃ evs : list Event,
    trace (m st).2 = (trace st ++ evs)%list ∧
    (sends evs ≤ n)%nat ∧
    ∀ x, (m st).1 = inr x → sends evs = n.

(** What of the credentials of [self] no call is meant to change: the
    key, the client credentials, and whether user credentials are stored. *)
Definition creds_shape (a : Aiogoogle) : option ApiKey * option ClientCreds * bool :=
  (api_key a, client_creds a, match user_creds a with Some _ => true | None => false end).

(** A computation that keeps that. *)
Definition keeps_shape {A} (m : M A) : Prop :=
  ∀ st, creds_shape (self (m st).2) = creds_shape (self st).

End Readings.

(** Collaborators whose user credentials are plain dictionaries, of which
    the empty one is falsy; nothing expires and the transport answers every
    batch with the empty list. *)
Module Dicts.

Fixpoint get (k : string) (d : list (string * string)) : option string :=
  match d with
  | [] => None
  | (k', v) :: rest => if String.eqb k k' then Some v else get k rest
  end.

Definition collaborators : Collaborators :=
  {| Interface.World := unit;
     Interface.UserCreds := list (string * string);
     Interface.ClientCreds := unit;
     Interface.ApiKey := string;
     Interface.Request := string;
     Interface.Session := unit;
     user_creds_truthy := λ d, match d with [] => false | _ => true end;
     oauth2_is_expired := λ _ _, false;
     oauth2_refresh := λ d _ w, (inr d, w);
     oauth2_authorize := λ r d, (r ++ "#bearer=" ++ default "" (get "access_token" d))%string;
     api_key_authorize := λ r k, (r ++ "?key=" ++ k)%string;
     session_factory := λ w, (inr tt, w);
     session_send := λ _ reqs _ _ w, (inr (VList (map VStr reqs)), w);
     session_aenter := λ _ w, (inr tt, w);
     session_aexit := λ _ w, (inr tt, w);
     apis_list := λ _ _ _, inr "list";
     apis_getRest := λ _ _ _, inr "getRest" |}.

End Dicts.

(** ** [examples/auth(production_unsafe)/openid_connect.py]

    The two request handlers of the example server.  The OpenID Connect
    manager they call ([aiogoogle.openid_connect]) and the web framework's
    [request.args] and [response] are not among the sources: the manager is
    an interface, [request.args] a dictionary from a parameter's name to the
    list of its values, of which [get] reads the first. *)
Module openid_connect_example.

Class OpenIdConnect : Type := {
  OWorld : Type;
  OClientCreds : Type;
  OUserCreds : Type;
  OUserInfo : Type;
  (** [openid_connect.is_ready], as the [if] reads it. *)
  is_ready : OClientCreds → bool;
  (** [openid_connect.authorization_url] over [client_creds], [state],
      [nonce], [access_type], [include_granted_scopes], [login_hint] and
      [prompt]. *)
  authorization_url :
    OClientCreds → string → string → string → bool → string → string → Exc + string;
  (** [openid_connect.build_user_creds] over [grant], [client_creds],
      [nonce] and [verify]. *)
  build_user_creds :
    option string → OClientCreds → string → bool → OWorld → (Exc + OUserCreds) * OWorld;
  get_user_info : OUserCreds → OWorld → (Exc + OUserInfo) * OWorld;
  (** [pprint.pformat]. *)
  pformat_creds : OUserCreds → string;
  pformat_info : OUserInfo → string;
}.

(** What a handler returns: [response.redirect], [response.json] of the
    error dictionary, [response.text]. *)
Inductive HTTPResponse : Type :=
| redirect (uri : string)
| json (error error_description : option string)
| text (body : string).

(** What a handler raises: the framework's [ServerError], or whatever a
    subscript or a collaborator raised. *)
Inductive HandlerExc : Type :=
| ServerError (msg : string)
| Raised (e : Exc).

(** The calls made to the manager, in order. *)
Inductive ManagerCall `{O : OpenIdConnect} : Type :=
| CallBuildUserCreds (grant : option string) (client_creds : OClientCreds)
    (nonce : string) (verify : bool)
| CallGetUserInfo (user_creds : OUserCreds).

(** The module-level names that the handlers read. *)
Record Globals `{O : OpenIdConnect} : Type := mkGlobals {
  EMAIL : string;
  CLIENT_CREDS : OClientCreds;
  state : string;
  nonce : string;
}.

Record HSt `{O : OpenIdConnect} : Type := mkHSt {
  hworld : OWorld;
  calls : list ManagerCall;
}.

(** [request.args.get(name)]: the first value of the parameter, [None]
    when the parameter is absent. *)
Definition args_get (args : gmap string (list string)) (name : string)
    : HandlerExc + option string :=
  match args !! name with
  | None => inr None
  | Some (v :: _) => inr (Some v)
  | Some [] => inl (Raised (IndexError "list index out of range"))
  end.

(** [request.args[name]]. *)
Definition args_getitem (args : gmap string (list string)) (name : string)
    : HandlerExc + list string :=
  match args !! name with
  | Some l => inr l
  | None => inl (Raised (KeyError (VStr name)))
  end.

(** [l[0]]. *)
Definition first_value (l : list string) : HandlerExc + string :=
  match l with
  | v :: _ => inr v
  | [] => inl (Raised (IndexError "list index out of range"))
  end.

(** [bool(v)] of an optional string. *)
Definition str_truthy (v : option string) : bool :=
  match v with
  | Some s => negb (String.eqb s "")
  | None => false
  end.

Definition newline : string := String (Ascii.ascii_of_nat 10) EmptyString.

Section Handlers.
Context `{O : OpenIdConnect}.
Variable globals : Globals.

Definition H (A : Type) : Type := HSt → (HandlerExc + A) * HSt.

Definition hret {A} (x : A) : H A := λ st, (inr x, st).

Definition hbind {A B} (m : H A) (f : A → H B) : H B := λ st,
  match m st with
  | (inr x, st') => f x st'
  | (inl e, st') => (inl e, st')
  end.

Definition hraise {A} (e : HandlerExc) : H A := λ st, (inl e, st).

Definition hlift {A} (r : HandlerExc + A) : H A := λ st, (r, st).

(** A call to the manager: logged, then performed on the world. *)
Definition manager {A} (c : ManagerCall) (f : OWorld → (Exc + A) * OWorld) : H A := λ st,
  let '(r, w) := f (hworld st) in
  (match r with inr x => inr x | inl e => inl (Raised e) end,
   {| hworld := w; calls := calls st ++ [c] |}).

Local Notation "x ← y ; z" := (hbind y (λ x, z))
  (at level 20, y at level 100, z at level 200, only parsing).

(** The handler of [/authorize]. *)
Definition authorize : HandlerExc + HTTPResponse :=
  if is_ready (CLIENT_CREDS globals) then
    match authorization_url (CLIENT_CREDS globals) (state globals) (nonce globals)
            "offline" true (EMAIL globals) "select_account" with
    | inr uri => inr (redirect uri)
    | inl e => inl (Raised e)
    end
  else inl (ServerError "Client doesn't have enough info for Oauth2").

(** The handler of [/callback/aiogoogle]. *)
Definition callback (args : gmap string (list string)) : H HTTPResponse :=
  error ← hlift (args_get args "error");
  if str_truthy error then
    error ← hlift (args_get args "error");
    error_description ← hlift (args_get args "error_description");
    hret (json error error_description)
  else
    code ← hlift (args_get args "code");
    if str_truthy code then
      values ← hlift (args_getitem args "state");
      returned_state ← hlift (first_value values);
      if negb (String.eqb returned_state (state globals)) then hraise (ServerError "NO")
      else
        grant ← hlift (args_get args "code");
        full_user_creds ←
          manager (CallBuildUserCreds grant (CLIENT_CREDS globals) (nonce globals) false)
            (build_user_creds grant (CLIENT_CREDS globals) (nonce globals) false);
        full_user_info ←
          manager (CallGetUserInfo full_user_creds) (get_user_info full_user_creds);
        hret (text ("full_user_creds: " ++ pformat_creds full_user_creds
                    ++ newline ++ newline
                    ++ "full_user_info: " ++ pformat_info full_user_info)%string)
    else hret (text "Something's probably wrong with your callback").

(** The exchanges among the calls. *)
Definition is_exchange (c : ManagerCall) : bool :=
  match c with CallBuildUserCreds _ _ _ _ => true | _ => false end.

End Handlers.

(** A manager that hands out the grant as the token and counts the
    exchanges. *)
Definition counting : OpenIdConnect :=
  {| OWorld := nat;
     OClientCreds := string;
     OUserCreds := string;
     OUserInfo := string;
     is_ready := λ cc, negb (String.eqb cc "");
     authorization_url := λ cc st n access _ hint prompt,
       inr ("https://accounts.example/auth?client=" ++ cc ++ "&state=" ++ st
            ++ "&nonce=" ++ n ++ "&access_type=" ++ access)%string;
     build_user_creds := λ grant cc n verify w,
       match grant with
       | Some g =>
           if String.eqb g "expired" then (inl (AuthError "invalid_grant"), S w)
           else (inr ("token-for-" ++ g)%string, S w)
       | None => (inl (AuthError "invalid_request"), S w)
       end;
     get_user_info := λ uc w, (inr ("info-of-" ++ uc)%string, w);
     pformat_creds := λ uc, uc;
     pformat_info := λ ui, ui |}.

Definition demo_globals : @Globals counting :=
  @mkGlobals counting "user@example.org" "client" "S3CR3T" "N0NC3".

Definition idle : @HSt counting := @mkHSt counting 0%nat [].

End openid_connect_example.

(** The concrete collaborators of [Demo] behind a transport that cannot be
    entered and that answers every batch with a directory listing nothing,
    not even an empty ["items"]. *)
Module Offline.

Definition empty_directory : Value :=
  VDict [("kind", VStr "discovery#directoryList"); ("discoveryVersion", VStr "v1")].

Definition collaborators : Collaborators :=
  {| Interface.World := Demo.World;
     Interface.UserCreds := Demo.UserCreds;
     Interface.ClientCreds := Demo.ClientCreds;
     Interface.ApiKey := string;
     Interface.Request := Demo.Request;
     Interface.Session := nat;
     user_creds_truthy := λ _, true;
     oauth2_is_expired := Demo.is_expired;
     oauth2_refresh := Demo.refresh;
     Interface.oauth2_authorize := Demo.oauth2_authorize;
     Interface.api_key_authorize := Demo.api_key_authorize;
     session_factory := Demo.factory;
     session_send := λ _ _ _ _ w, (inr empty_directory, w);
     session_aenter := λ _ w, (inl (HTTPError "connection refused"), w);
     session_aexit := λ _ w, (inr tt, w);
     Interface.apis_list := Demo.apis_list;
     Interface.apis_getRest := Demo.apis_getRest |}.

End Offline.

(** Two implementations of a method, as [inspect] sees them. *)
Module Methods.

Definition plain : abc.Member := abc.mkMember "<function send>" false.
Definition coroutine : abc.Member := abc.mkMember "<function send>" true.

End Methods.

(** ** The constructor that [AbstractSession.__new__] resumes with

    [super(AbstractSession, cls).__new__] is Python's own [object.__new__],
    part of the language and not of the repository.  For a class whose
    [__new__] is not [object.__new__] itself, as every subclass of
    [AbstractSession] is, it refuses any argument beyond the class, then
    refuses a class that still has an abstract method, and otherwise
    allocates the instance. *)
Module builtins.

(** The [*args] and [**kwargs] of a call. *)
Record Arguments : Type := mkArguments {
  positional : list Value;
  keywords : list (string * Value);
}.

(** A new instance, known by its class. *)
Record Instance : Type := mkInstance {
  type_name : string;
}.

Definition excess_args (a : Arguments) : bool :=
  match positional a, keywords a with
  | [], [] => false
  | _, _ => true
  end.

(** [send] is the one abstract method of [AbstractSession]; it stays
    abstract for a class unless a class nearer in the resolution order
    defines [send]. *)
Definition is_abstract (cls : abc.PyClass) : bool :=
  match abc.lookup_mro "send" (abc.namespaces cls) with
  | None => true
  | Some _ => false
  end.

Definition object_new (cls : abc.PyClass) (a : Arguments) : Exc + Instance :=
  if excess_args a then
    inl (TypeError "object.__new__() takes exactly one argument (the type to instantiate)")
  else if is_abstract cls then
    inl (TypeError ("Can't instantiate abstract class " ++ abc.cls_name cls
                    ++ " with abstract methods send")%string)
  else inr (mkInstance (abc.cls_name cls)).

(** A session class as the docstring of [Aiogoogle] has it: its [send] is
    a coroutine function, and it is built with arguments of its own. *)
Definition CustomSession : abc.PyClass :=
  abc.mkPyClass "Session"
    [ {[ "send" := abc.mkMember "<function Session.send>" true;
         "__init__" := abc.mkMember "<function Session.__init__>" false ]} ].

Definition custom_arguments : Arguments :=
  {| positional := [VStr "your_custome_arg"];
     keywords := [("your_custom_kwarg", VBool true)] |}.

End builtins.

(** * Properties of the orchestrator *)

Local Open Scope list_scope.

Section ClientFacts.
Context `{C : Collaborators}.

Implicit Types (st : St) (a : Aiogoogle) (evs : list Event) (requests : list Request).

(** ** How the log grows *)

Lemma logged_nil st : logged st [] = st.
Proof. destruct st; unfold logged; simpl. by rewrite app_nil_r. Qed.

Lemma logged_app st evs1 evs2 : logged (logged st evs1) evs2 = logged st (evs1 ++ evs2).
Proof. unfold logged; simpl. by rewrite app_assoc. Qed.

Lemma authorize_all_run {K} (ev : Request → K → Event) (auth : Request → K → Request)
    (k : K) requests st :
  authorize_all ev auth k requests st
  = (inr (map (λ r, auth r k) requests), logged st (map (λ r, ev r k) requests)).
Proof.
  revert st. induction requests as [|r rest IH]; intros st; simpl.
  - by rewrite logged_nil.
  - unfold bind at 1. unfold log at 1. unfold bind at 1. rewrite IH.
    unfold ret. f_equal. unfold logged; simpl. by rewrite <- app_assoc.
Qed.

(** ** What one call of [_ensure_session_set] and of [send] does *)

Lemma ensure_session_set_run st :
  _ensure_session_set st =
    match active_session (self st) with
    | Some _ => (inr tt, st)
    | None =>
        match session_factory (world st) with
        | (inr s, w) =>
            (inr tt, {| self := set_active_session (Some s) (self st); world := w;
                        trace := trace st ++ [EvSessionFactory (inr s)] |})
        | (inl e, w) =>
            (inl e, {| self := self st; world := w;
                       trace := trace st ++ [EvSessionFactory (inl e)] |})
        end
    end.
Proof.
  unfold _ensure_session_set, bind, get_self, put_self, ret.
  destruct (active_session (self st)); [done|].
  destruct (session_factory (world st)) as [[e|s] w]; done.
Qed.

Lemma send_run requests timeout full_res st :
  send requests timeout full_res st =
    match active_session (self st) with
    | Some s =>
        let '(r, w) := session_send s requests timeout full_res (world st) in
        (r, {| self := self st; world := w;
               trace := trace st ++ [EvSessionSend s requests timeout full_res] |})
    | None =>
        match session_factory (world st) with
        | (inr s, w) =>
            let '(r, w') := session_send s requests timeout full_res w in
            (r, {| self := set_active_session (Some s) (self st); world := w';
                   trace := trace st ++ [EvSessionFactory (inr s);
                                         EvSessionSend s requests timeout full_res] |})
        | (inl e, w) =>
            (inl e, {| self := self st; world := w;
                       trace := trace st ++ [EvSessionFactory (inl e)] |})
        end
    end.
Proof.
  unfold send. unfold bind at 1. rewrite ensure_session_set_run.
  destruct (active_session (self st)) as [s|] eqn:Hs.
  - unfold bind, get_self, log, io; simpl. rewrite Hs; simpl.
    by destruct (session_send s requests timeout full_res (world st)).
  - destruct (session_factory (world st)) as [[e|s] w]; [done|].
    unfold bind, get_self, log, io; simpl.
    destruct (session_send s requests timeout full_res w).
    by rewrite <- app_assoc.
Qed.

(** ** What one call of each entry point does *)

Lemma as_user_run requests timeout full_res arg st :
  as_user requests timeout full_res arg st =
    match py_or arg (user_creds (self st)) with
    | None => (inl (TypeError "No user credentials were found"), st)
    | Some uc =>
        if oauth2_is_expired uc (world st) then
          match oauth2_refresh uc (client_creds (self st)) (world st) with
          | (inr uc', w) =>
              send (map (λ r, oauth2_authorize r uc') requests) timeout full_res
                {| self := refreshed_self uc' (self st); world := w;
                   trace := trace st ++ EvRefresh uc (client_creds (self st))
                              :: map (λ r, EvOauth2Authorize r uc') requests |}
          | (inl e, w) =>
              (inl e, {| self := self st; world := w;
                         trace := trace st ++ [EvRefresh uc (client_creds (self st))] |})
          end
        else
          send (map (λ r, oauth2_authorize r uc) requests) timeout full_res
            (logged st (map (λ r, EvOauth2Authorize r uc) requests))
    end.
Proof.
  unfold as_user. unfold bind at 1. unfold get_self at 1.
  destruct (py_or arg (user_creds (self st))) as [uc|]; [|done].
  unfold bind at 1. unfold bind at 1. unfold read_world at 1.
  destruct (oauth2_is_expired uc (world st)).
  - unfold bind at 1. unfold get_self at 1. unfold bind at 1. unfold log at 1.
    unfold bind at 1. unfold io at 1. simpl.
    destruct (oauth2_refresh uc (client_creds (self st)) (world st)) as [[e|uc'] w]; [done|].
    unfold bind at 1. unfold get_self at 1. unfold bind at 1. simpl.
    unfold refreshed_self.
    destruct (user_creds (self st)) as [old|]; unfold put_self, ret; simpl;
      unfold bind at 1; rewrite authorize_all_run; unfold logged; simpl;
      by rewrite <- app_assoc.
  - unfold ret at 1. unfold bind at 1. by rewrite authorize_all_run.
Qed.

Lemma as_api_key_run requests timeout full_res arg st :
  as_api_key requests timeout full_res arg st =
    match api_key (self st) with
    | None => (inl (TypeError "No API key found"), st)
    | Some k =>
        send (map (λ r, api_key_authorize r k) requests) timeout full_res
          (logged st (map (λ r, EvApiKeyAuthorize r k) requests))
    end.
Proof.
  unfold as_api_key. unfold bind at 1. unfold get_self at 1.
  destruct (api_key (self st)) as [k|]; [|done].
  unfold bind at 1. by rewrite authorize_all_run.
Qed.

(** The events that one [send] logs: the batch goes to the session as it
    was given, after at most one call of the factory. *)
Lemma send_log requests timeout full_res st :
  ∃ evs, trace (send requests timeout full_res st).2 = trace st ++ evs ∧
    ((∃ e, evs = [EvSessionFactory (inl e)]) ∨
     (∃ s pre, evs = pre ++ [EvSessionSend s requests timeout full_res] ∧
               (pre = [] ∨ pre = [EvSessionFactory (inr s)]))).
Proof.
  rewrite send_run.
  destruct (active_session (self st)) as [s|].
  - destruct (session_send s requests timeout full_res (world st)) as [r w]; simpl.
    eexists; split; [done|]. right. exists s, []. eauto.
  - destruct (session_factory (world st)) as [[e|s] w]; simpl.
    + eexists; split; [done|]. left. eauto.
    + destruct (session_send s requests timeout full_res w) as [r w']; simpl.
      eexists; split; [done|]. right. exists s, [EvSessionFactory (inr s)]. eauto.
Qed.

Lemma send_log_transport requests timeout full_res st :
  ∃ evs, trace (send requests timeout full_res st).2 = trace st ++ evs ∧
    Forall (λ e, is_transport e = true) evs.
Proof.
  destruct (send_log requests timeout full_res st) as (evs & Htr & Hshape).
  exists evs; split; [done|].
  destruct Hshape as [[e ->]|(s & pre & -> & [->| ->])]; repeat constructor.
Qed.

Lemma transport_not_refresh evs :
  Forall (λ e, is_transport e = true) evs → Forall (λ e, is_refresh e = false) evs.
Proof. intros H. eapply Forall_impl; [done|]. by intros []. Qed.

Lemma transport_not_authorize evs :
  Forall (λ e, is_transport e = true) evs → Forall (λ e, is_authorize e = false) evs.
Proof. intros H. eapply Forall_impl; [done|]. by intros []. Qed.

Lemma Forall_map_events {A} (P : Event → Prop) (f : A → Event) (l : list A) :
  (∀ x, P (f x)) → Forall P (map f l).
Proof. intros HP. apply Forall_forall. intros e (x & -> & _)%list_elem_of_fmap. apply HP. Qed.

(** Where the value that [send] returns comes from: the session that was
    active, or else the one that the factory returned just before, called
    on the batch in the world as it then was; that session is the active
    one afterwards. *)
Lemma send_result_from_session requests timeout full_res st v st' :
  send requests timeout full_res st = (inr v, st') →
  ∃ s,
    match active_session (self st) with
    | Some s0 => s = s0
    | None => (session_factory (world st)).1 = inr s
    end ∧
    session_send s requests timeout full_res
      (match active_session (self st) with
       | Some _ => world st
       | None => (session_factory (world st)).2
       end) = (inr v, world st') ∧
    active_session (self st') = Some s ∧
    last (trace st') = Some (EvSessionSend s requests timeout full_res).
Proof.
  rewrite send_run.
  destruct (active_session (self st)) as [s|] eqn:Hact.
  - destruct (session_send s requests timeout full_res (world st)) as [r w] eqn:Hs.
    intros [= -> <-]. exists s. simpl. by rewrite last_snoc.
  - destruct (session_factory (world st)) as [[e|s] w]; [done|].
    destruct (session_send s requests timeout full_res w) as [r w'] eqn:Hs.
    intros [= -> <-]. exists s. simpl. by rewrite last_app.
Qed.

(** ** Missing credentials *)

(** C4. Called without a [user_creds] argument on an orchestrator that has
    no stored [user_creds], [as_user] raises the credentials-missing
    [TypeError] and leaves everything as it was: the attributes of [self],
    the outside world, and the log (no refresh, no authorization, no
    session created, nothing sent). *)
Theorem as_user_without_credentials_fails_first requests timeout full_res st :
  user_creds (self st) = None →
  as_user requests timeout full_res None st
  = (inl (TypeError "No user credentials were found"), st).
Proof. intros Hnone. rewrite as_user_run. simpl. by rewrite Hnone. Qed.

(** ** Refresh before use *)

(** The log of one [as_user]: a refresh, if any, comes first and alone. *)
Lemma as_user_refresh_log requests timeout full_res arg st uc :
  py_or arg (user_creds (self st)) = Some uc →
  ∃ evs, trace (as_user requests timeout full_res arg st).2 = trace st ++ evs ∧
    if oauth2_is_expired uc (world st) then
      ∃ rest, evs = EvRefresh uc (client_creds (self st)) :: rest ∧
        Forall (λ e, is_refresh e = false) rest ∧
        match (oauth2_refresh uc (client_creds (self st)) (world st)).1 with
        | inr uc' => ∀ r c, EvOauth2Authorize r c ∈ rest → c = uc'
        | inl _ => rest = []
        end
    else Forall (λ e, is_refresh e = false) evs.
Proof.
  intros Huc. rewrite as_user_run, Huc.
  destruct (oauth2_is_expired uc (world st)).
  - destruct (oauth2_refresh uc (client_creds (self st)) (world st)) as [[e|uc'] w]; simpl.
    + exists [EvRefresh uc (client_creds (self st))]. split; [done|]. eauto.
    + match goal with |- context [send ?rs _ _ ?s] =>
        destruct (send_log_transport rs timeout full_res s) as (sevs & -> & Hsevs)
      end; simpl.
      eexists. split; [by rewrite <- app_assoc|].
      eexists. split; [done|]. split.
      * apply Forall_app; split; [by apply Forall_map_events|by apply transport_not_refresh].
      * intros r c [Hin|Hin]%elem_of_app.
        -- apply list_elem_of_fmap in Hin as (x & Hx & _). by inversion Hx.
        -- eapply Forall_forall in Hsevs; [|done]. done.
  - match goal with |- context [send ?rs _ _ ?s] =>
      destruct (send_log_transport rs timeout full_res s) as (sevs & -> & Hsevs)
    end; simpl.
    eexists. split; [by rewrite <- app_assoc|].
    apply Forall_app; split; [by apply Forall_map_events|by apply transport_not_refresh].
Qed.

Lemma refreshed_self_keeps_session uc' a :
  active_session (refreshed_self uc' a) = active_session a.
Proof. unfold refreshed_self. by destruct (user_creds a). Qed.

(** C3. [as_user] with effective credentials [uc].  When [is_expired uc]
    holds, the call first performs the one refresh exchange of [uc] with
    the client credentials of [self]: if the exchange raises, the call ends
    there with that exception, in the world the exchange left; if it
    returns [uc'], the call goes on, from the world the exchange left, as
    [send] on the batch authorized with [uc'], and whatever the call
    returns is what the session's [send] returned for that batch in that
    world (after the factory, if no session was active).  No other refresh
    is logged.  When [is_expired uc] does not hold, no refresh is performed:
    the call is [send] on the batch authorized with [uc], from the world as
    it was. *)
Theorem as_user_refreshes_once_before_authorizing requests timeout full_res arg st uc :
  py_or arg (user_creds (self st)) = Some uc →
  let run := as_user requests timeout full_res arg st in
  let cc := client_creds (self st) in
  let expired := oauth2_is_expired uc (world st) in
  let exchange := oauth2_refresh uc cc (world st) in
  (∃ evs, trace run.2 = trace st ++ evs ∧
     if expired then
       ∃ rest, evs = EvRefresh uc cc :: rest ∧
         Forall (λ e, is_refresh e = false) rest ∧
         match exchange.1 with
         | inr uc' => ∀ r c, EvOauth2Authorize r c ∈ rest → c = uc'
         | inl _ => rest = []
         end
     else Forall (λ e, is_refresh e = false) evs) ∧
  (if expired then
     match exchange with
     | (inr uc', w) =>
         run = send (map (λ r, oauth2_authorize r uc') requests) timeout full_res
                 {| self := refreshed_self uc' (self st); world := w;
                    trace := trace st ++ EvRefresh uc cc
                               :: map (λ r, EvOauth2Authorize r uc') requests |}
     | (inl e, w) =>
         run = (inl e, {| self := self st; world := w;
                          trace := trace st ++ [EvRefresh uc cc] |})
     end
   else
     run = send (map (λ r, oauth2_authorize r uc) requests) timeout full_res
             (logged st (map (λ r, EvOauth2Authorize r uc) requests))) ∧
  (∀ v, run.1 = inr v →
     ∃ uc1 s,
       (if expired then exchange.1 = inr uc1 else uc1 = uc) ∧
       let batch := map (λ r, oauth2_authorize r uc1) requests in
       let before := if expired then exchange.2 else world st in
       last (trace run.2) = Some (EvSessionSend s batch timeout full_res) ∧
       session_send s batch timeout full_res
         (match active_session (self st) with
          | Some _ => before
          | None => (session_factory before).2
          end) = (inr v, world run.2)).
Proof.
  intros Huc. simpl. split; [by apply as_user_refresh_log|].
  rewrite as_user_run, Huc.
  destruct (oauth2_is_expired uc (world st)).
  - destruct (oauth2_refresh uc (client_creds (self st)) (world st)) as [[e|uc'] w]; simpl.
    + split; [done|]. done.
    + split; [done|]. intros v Hv.
      match goal with |- context [send ?rs ?t ?f ?s0] =>
        destruct (send rs t f s0) as [r st'] eqn:Hsend
      end.
      simpl in Hv. subst r.
      apply send_result_from_session in Hsend as (s & _ & Hs & _ & Hlast).
      simpl in Hs. rewrite refreshed_self_keeps_session in Hs.
      exists uc', s. split; [done|]. by split.
  - split; [done|]. intros v Hv.
    match goal with |- context [send ?rs ?t ?f ?s0] =>
      destruct (send rs t f s0) as [r st'] eqn:Hsend
    end.
    simpl in Hv. subst r.
    apply send_result_from_session in Hsend as (s & _ & Hs & _ & Hlast).
    exists uc, s. split; [done|]. by split.
Qed.

(** ** Where refreshed credentials are stored *)

Lemma send_keeps_credentials requests timeout full_res st :
  let a' := self (send requests timeout full_res st).2 in
  user_creds a' = user_creds (self st) ∧ api_key a' = api_key (self st) ∧
  client_creds a' = client_creds (self st).
Proof.
  rewrite send_run.
  destruct (active_session (self st)) as [s|].
  - by destruct (session_send s requests timeout full_res (world st)).
  - destruct (session_factory (world st)) as [[e|s] w]; [done|].
    by destruct (session_send s requests timeout full_res w).
Qed.

(** C1, as amended. When [as_user] refreshes its effective credentials
    [uc] to [uc'], the stored [self.user_creds] becomes [uc'] exactly when
    a default was stored beforehand, whether or not the caller passed
    credentials of its own; an orchestrator without stored credentials
    stays without, and a call that used the stored default (no argument)
    always stores the refreshed ones.  The other credentials of [self]
    are untouched. *)
Theorem as_user_stores_refreshed_iff_default_set requests timeout full_res arg st uc uc' w :
  py_or arg (user_creds (self st)) = Some uc →
  oauth2_is_expired uc (world st) = true →
  oauth2_refresh uc (client_creds (self st)) (world st) = (inr uc', w) →
  let a' := self (as_user requests timeout full_res arg st).2 in
  user_creds a' = match user_creds (self st) with Some _ => Some uc' | None => None end ∧
  (user_creds a' = Some uc' ↔ is_Some (user_creds (self st))) ∧
  (arg = None → user_creds a' = Some uc') ∧
  api_key a' = api_key (self st) ∧ client_creds a' = client_creds (self st).
Proof.
  intros Huc Hexp Href a'. subst a'. rewrite as_user_run, Huc, Hexp, Href.
  match goal with |- context [send ?rs _ _ ?s] =>
    destruct (send_keeps_credentials rs timeout full_res s) as (-> & -> & ->)
  end; simpl.
  assert (user_creds (refreshed_self uc' (self st))
          = match user_creds (self st) with Some _ => Some uc' | None => None end) as Heq.
  { unfold refreshed_self. by destruct (user_creds (self st)) eqn:E; simpl; rewrite ?E. }
  rewrite Heq. split; [done|]. split; [|split; [|split]].
  - destruct (user_creds (self st)); split; intros H; try done; by destruct H.
  - intros ->. simpl in Huc. by rewrite Huc.
  - unfold refreshed_self. by destruct (user_creds (self st)).
  - unfold refreshed_self. by destruct (user_creds (self st)).
Qed.

(** ** The API key argument *)

Lemma as_api_key_argument_unused requests timeout full_res arg1 arg2 st :
  as_api_key requests timeout full_res arg1 st = as_api_key requests timeout full_res arg2 st.
Proof. by rewrite !as_api_key_run. Qed.

(** X24. Without a stored key [as_api_key] raises the credentials-missing
    [TypeError] before anything else happens, whatever key the caller
    passed: no authorization, no session, nothing sent. *)
Lemma as_api_key_without_stored_key requests timeout full_res arg st :
  api_key (self st) = None →
  as_api_key requests timeout full_res arg st = (inl (TypeError "No API key found"), st).
Proof. intros Hk. by rewrite as_api_key_run, Hk. Qed.

(** With a stored key every request is authorized with it, in order, and
    the authorized batch is what [send] is called on. *)
Lemma as_api_key_with_stored_key requests timeout full_res arg st k :
  api_key (self st) = Some k →
  as_api_key requests timeout full_res arg st
  = send (map (λ r, api_key_authorize r k) requests) timeout full_res
      (logged st (map (λ r, EvApiKeyAuthorize r k) requests)).
Proof. intros Hk. by rewrite as_api_key_run, Hk. Qed.

(** ** Anonymous dispatch *)


(** ** Order of the responses *)


Section Order.
(** [answers r v]: the response [v] is the transport's answer to [r]. *)
Variable answers : Request → Value → Prop.

End Order.

(** ** The session is created lazily and once *)

Lemma session_step_refl st : session_step st st.
Proof.
  exists []. rewrite app_nil_r. split; [done|]. split.
  - by destruct (active_session (self st)).
  - intros s Hin. by apply elem_of_nil in Hin.
Qed.

Lemma session_step_trans st1 st2 st3 :
  session_step st1 st2 → session_step st2 st3 → session_step st1 st3.
Proof.
  intros (evs1 & Ht1 & Hc1 & Hu1) (evs2 & Ht2 & Hc2 & Hu2).
  exists (evs1 ++ evs2). split; [by rewrite Ht2, Ht1, app_assoc|].
  rewrite !omap_app. split.
  - destruct (active_session (self st1)) as [s1|].
    + destruct Hc1 as [Hs2 Hc1]. rewrite Hs2 in Hc2. destruct Hc2 as [Hs3 Hc2].
      by rewrite Hc1, Hc2.
    + destruct (active_session (self st2)) as [s2|].
      * destruct Hc2 as [Hs3 Hc2]. by rewrite Hc1, Hc2, Hs3.
      * by rewrite Hc1, Hc2.
  - intros s [Hin|Hin]%elem_of_app; [|by apply Hu2].
    apply Hu1 in Hin. rewrite Hin in Hc2. by destruct Hc2.
Qed.

(** A step that logs nothing about sessions and keeps [active_session]. *)
Lemma session_step_neutral st st' evs :
  trace st' = trace st ++ evs →
  active_session (self st') = active_session (self st) →
  omap created_session evs = [] → omap event_session evs = [] →
  session_step st st'.
Proof.
  intros Ht Hs Hc Hu. exists evs. split; [done|]. rewrite Hc, Hu, Hs. split.
  - by destruct (active_session (self st)).
  - intros s Hin. by apply elem_of_nil in Hin.
Qed.

Lemma omap_map_none {A B} (g : Event → option B) (f : A → Event) (l : list A) :
  (∀ x, g (f x) = None) → omap g (map f l) = [].
Proof. intros Hg. induction l as [|x l IH]; simpl; [done|]. by rewrite Hg. Qed.

Lemma ensure_session_set_steps : steps _ensure_session_set.
Proof.
  intros st. rewrite ensure_session_set_run.
  destruct (active_session (self st)) as [s|] eqn:Hs; [apply session_step_refl|].
  destruct (session_factory (world st)) as [[e|s] w]; simpl.
  - apply (session_step_neutral _ _ [EvSessionFactory (inl e)]); done.
  - exists [EvSessionFactory (inr s)]. rewrite Hs; simpl. split; [done|]. split; [done|].
    intros s' Hin. by apply elem_of_nil in Hin.
Qed.

Lemma send_steps requests timeout full_res : steps (send requests timeout full_res).
Proof.
  intros st. rewrite send_run.
  destruct (active_session (self st)) as [s|] eqn:Hs.
  - destruct (session_send s requests timeout full_res (world st)) as [r w]; simpl.
    exists [EvSessionSend s requests timeout full_res]. rewrite Hs; simpl.
    split; [done|]. split; [done|].
    intros s' Hin%list_elem_of_singleton. by subst.
  - destruct (session_factory (world st)) as [[e|s] w]; simpl.
    + apply (session_step_neutral _ _ [EvSessionFactory (inl e)]); done.
    + destruct (session_send s requests timeout full_res w) as [r w']; simpl.
      eexists. rewrite Hs; simpl. split; [done|]. split; [done|].
      intros s' Hin%list_elem_of_singleton. by subst.
Qed.

Lemma aenter_steps : steps __aenter__.
Proof.
  intros st. unfold __aenter__. unfold bind at 1.
  pose proof (ensure_session_set_steps st) as Hstep.
  destruct (_ensure_session_set st) as [[e|[]] st1]; simpl in *; [done|].
  eapply session_step_trans; [done|].
  unfold bind, get_self, log, io; simpl.
  destruct (active_session (self st1)) as [s|] eqn:Hs; simpl.
  - destruct (session_aenter s (world st1)) as [r w]; simpl.
    exists [EvSessionEnter s]; simpl. rewrite Hs. split; [done|]. split; [done|].
    intros s' Hin%list_elem_of_singleton. by subst.
  - apply session_step_refl.
Qed.

Lemma aexit_steps : steps __aexit__.
Proof.
  intros st. unfold __aexit__, bind, get_self, log, io; simpl.
  destruct (active_session (self st)) as [s|] eqn:Hs; simpl.
  - destruct (session_aexit s (world st)) as [r w]; simpl.
    exists [EvSessionExit s]; simpl. rewrite Hs. split; [done|]. split; [done|].
    intros s' Hin%list_elem_of_singleton. by subst.
  - apply session_step_refl.
Qed.

Lemma as_user_steps requests timeout full_res arg :
  steps (as_user requests timeout full_res arg).
Proof.
  intros st. rewrite as_user_run.
  destruct (py_or arg (user_creds (self st))) as [uc|]; [|apply session_step_refl].
  destruct (oauth2_is_expired uc (world st)).
  - destruct (oauth2_refresh uc (client_creds (self st)) (world st)) as [[e|uc'] w]; simpl.
    + apply (session_step_neutral _ _ [EvRefresh uc (client_creds (self st))]); done.
    + eapply session_step_trans; [|apply send_steps].
      eapply session_step_neutral; simpl; [done| | |].
      * unfold refreshed_self. by destruct (user_creds (self st)).
      * by apply omap_map_none.
      * by apply omap_map_none.
  - eapply session_step_trans; [|apply send_steps].
    eapply session_step_neutral; simpl; [done|done| |]; by apply omap_map_none.
Qed.

Lemma as_api_key_steps requests timeout full_res arg :
  steps (as_api_key requests timeout full_res arg).
Proof.
  intros st. rewrite as_api_key_run.
  destruct (api_key (self st)) as [k|]; [|apply session_step_refl].
  eapply session_step_trans; [|apply send_steps].
  eapply session_step_neutral; simpl; [done|done| |]; by apply omap_map_none.
Qed.

Lemma bind_steps {A B} (m : M A) (f : A → M B) :
  steps m → (∀ x, steps (f x)) → steps (bind m f).
Proof.
  intros Hm Hf st. unfold bind. specialize (Hm st).
  destruct (m st) as [[e|x] st1]; simpl in *; [done|].
  eapply session_step_trans; [done|apply Hf].
Qed.

Lemma ret_steps {A} (x : A) : steps (ret x).
Proof. intros st. apply session_step_refl. Qed.

Lemma raise_steps {A} e : steps (raise (A:=A) e).
Proof. intros st. apply session_step_refl. Qed.

Lemma lift_steps {A} (r : Exc + A) : steps (lift r).
Proof. intros st. apply session_step_refl. Qed.

Lemma log_steps e :
  created_session e = None → event_session e = None → steps (log e).
Proof.
  intros Hc Hu st. apply (session_step_neutral _ _ [e]); simpl; [done|done| |].
  - by rewrite Hc.
  - by rewrite Hu.
Qed.

Lemma list_api_steps name preferred fields : steps (list_api name preferred fields).
Proof.
  unfold list_api. apply bind_steps; [by apply log_steps|]. intros _.
  apply bind_steps; [apply lift_steps|]. intros request. apply send_steps.
Qed.

Lemma discover_steps api_name api_version validate :
  steps (discover api_name api_version validate).
Proof.
  unfold discover. apply bind_steps.
  - destruct api_version; try apply ret_steps.
    apply bind_steps; [apply list_api_steps|]. intros discovery_list.
    apply bind_steps; [apply lift_steps|]. intros items.
    destruct (Py.truthy items); [|apply raise_steps].
    repeat (apply bind_steps; [apply lift_steps|]; intros ?).
    apply ret_steps.
  - intros nv. apply bind_steps; [by apply log_steps|]. intros _.
    apply bind_steps; [apply lift_steps|]. intros request.
    apply bind_steps; [apply send_steps|]. intros doc. apply ret_steps.
Qed.

Lemma run_call_steps c st : session_step st (run_call c st).
Proof.
  destruct c; simpl.
  - apply as_user_steps.
  - apply as_api_key_steps.
  - apply send_steps.
  - apply list_api_steps.
  - apply discover_steps.
  - apply aenter_steps.
  - apply aexit_steps.
Qed.

Lemma run_calls_steps cs st : session_step st (run_calls cs st).
Proof.
  revert st. induction cs as [|c cs IH]; intros st; simpl.
  - apply session_step_refl.
  - eapply session_step_trans; [apply run_call_steps|apply IH].
Qed.

Lemma aenter_run st :
  __aenter__ st =
    match active_session (self st) with
    | Some s =>
        let '(r, w) := session_aenter s (world st) in
        (r, {| self := self st; world := w; trace := trace st ++ [EvSessionEnter s] |})
    | None =>
        match session_factory (world st) with
        | (inr s, w) =>
            let '(r, w') := session_aenter s w in
            (r, {| self := set_active_session (Some s) (self st); world := w';
                   trace := trace st ++ [EvSessionFactory (inr s); EvSessionEnter s] |})
        | (inl e, w) =>
            (inl e, {| self := self st; world := w;
                       trace := trace st ++ [EvSessionFactory (inl e)] |})
        end
    end.
Proof.
  unfold __aenter__. unfold bind at 1. rewrite ensure_session_set_run.
  destruct (active_session (self st)) as [s|] eqn:Hs.
  - unfold bind, get_self, log, io; simpl. rewrite Hs; simpl.
    by destruct (session_aenter s (world st)).
  - destruct (session_factory (world st)) as [[e|s] w]; [done|].
    unfold bind, get_self, log, io; simpl.
    destruct (session_aenter s w). by rewrite <- app_assoc.
Qed.

(** A dispatch that returns has sent on the session that is active
    afterwards: the one that was active, or one the factory returned. *)
Lemma dispatch_session ep requests timeout full_res st v st1 :
  dispatch ep requests timeout full_res st = (inr v, st1) →
  ∃ s, active_session (self st1) = Some s ∧
    (∃ batch, last (trace st1) = Some (EvSessionSend s batch timeout full_res)) ∧
    match active_session (self st) with
    | Some s0 => s = s0
    | None => ∃ w, (session_factory w).1 = inr s
    end.
Proof.
  assert (∀ batch st0, active_session (self st0) = active_session (self st) →
            send batch timeout full_res st0 = (inr v, st1) →
            ∃ s, active_session (self st1) = Some s ∧
              (∃ batch, last (trace st1) = Some (EvSessionSend s batch timeout full_res)) ∧
              match active_session (self st) with
              | Some s0 => s = s0
              | None => ∃ w, (session_factory w).1 = inr s
              end) as Hsend.
  { intros batch st0 Hact (s & Hfrom & _ & Hs & Hlast)%send_result_from_session.
    exists s. split; [done|]. split; [by exists batch|].
    rewrite Hact in Hfrom. destruct (active_session (self st)); [done|by eexists]. }
  destruct ep as [arg|arg|]; simpl.
  - rewrite as_user_run.
    destruct (py_or arg (user_creds (self st))) as [uc|]; [|done].
    destruct (oauth2_is_expired uc (world st)).
    + destruct (oauth2_refresh uc (client_creds (self st)) (world st)) as [[e|uc'] w]; [done|].
      apply Hsend. simpl. apply refreshed_self_keeps_session.
    + by apply Hsend.
  - rewrite as_api_key_run.
    destruct (api_key (self st)) as [k|]; [|done]. by apply Hsend.
  - by apply Hsend.
Qed.

(** C5. The session is created lazily and once.  On an orchestrator with
    no active session, the first dispatch or context entry calls
    [session_factory]: if it returns a session, that session becomes the
    active one and the batch is sent on it (or it is entered), and if it
    raises, the call raises and no session is set.  On an orchestrator
    with an active session, [_ensure_session_set] does nothing, and a
    dispatch or context entry goes to that session without calling the
    factory.  Whichever entry point is used, a dispatch that returns has
    sent on the session that is active afterwards.  And over any sequence
    of calls on one instance (failing or not): an active session is still
    the active one afterwards and no session is created; without one, the
    sessions created are exactly the one that is active afterwards, if
    any, so at most one; and every [send], [__aenter__] and [__aexit__] of
    the calls was done on the session that is active afterwards. *)
Theorem session_created_lazily_at_most_once cs st requests timeout full_res :
  let st' := run_calls cs st in
  (∃ evs, trace st' = trace st ++ evs ∧
    match active_session (self st) with
    | Some s =>
        _ensure_session_set st = (inr tt, st) ∧
        active_session (self st') = Some s ∧
        omap created_session evs = []
    | None =>
        active_session (self (_ensure_session_set st).2)
        = match (session_factory (world st)).1 with inr s => Some s | inl _ => None end ∧
        omap created_session evs = option_list (active_session (self st')) ∧
        (length (omap created_session evs) ≤ 1)%nat
    end ∧
    ∀ s, s ∈ omap event_session evs → active_session (self st') = Some s) ∧
  match active_session (self st) with
  | Some s =>
      as_anon requests timeout full_res st
      = (let '(r, w) := session_send s requests timeout full_res (world st) in
         (r, {| self := self st; world := w;
                trace := trace st ++ [EvSessionSend s requests timeout full_res] |})) ∧
      __aenter__ st
      = (let '(r, w) := session_aenter s (world st) in
         (r, {| self := self st; world := w; trace := trace st ++ [EvSessionEnter s] |}))
  | None =>
      match session_factory (world st) with
      | (inr s, w) =>
          as_anon requests timeout full_res st
          = (let '(r, w') := session_send s requests timeout full_res w in
             (r, {| self := set_active_session (Some s) (self st); world := w';
                    trace := trace st ++ [EvSessionFactory (inr s);
                                          EvSessionSend s requests timeout full_res] |})) ∧
          __aenter__ st
          = (let '(r, w') := session_aenter s w in
             (r, {| self := set_active_session (Some s) (self st); world := w';
                    trace := trace st ++ [EvSessionFactory (inr s); EvSessionEnter s] |}))
      | (inl e, w) =>
          as_anon requests timeout full_res st
          = (inl e, {| self := self st; world := w;
                       trace := trace st ++ [EvSessionFactory (inl e)] |}) ∧
          __aenter__ st
          = (inl e, {| self := self st; world := w;
                       trace := trace st ++ [EvSessionFactory (inl e)] |})
      end
  end ∧
  (∀ ep v st1, dispatch ep requests timeout full_res st = (inr v, st1) →
     ∃ s, active_session (self st1) = Some s ∧
       (∃ batch, last (trace st1) = Some (EvSessionSend s batch timeout full_res)) ∧
       match active_session (self st) with
       | Some s0 => s = s0
       | None => ∃ w, (session_factory w).1 = inr s
       end).
Proof.
  simpl. split; [|split].
  - destruct (run_calls_steps cs st) as (evs & Ht & Hc & Hu).
    exists evs. split; [done|]. split; [|done].
    destruct (active_session (self st)) as [s|] eqn:Hs.
    + split; [|done]. by rewrite ensure_session_set_run, Hs.
    + split; [|split; [done|]].
      * rewrite ensure_session_set_run, Hs.
        by destruct (session_factory (world st)) as [[e|s] w].
      * rewrite Hc. destruct (active_session (self (run_calls cs st))); simpl; lia.
  - unfold as_anon. rewrite send_run, aenter_run.
    destruct (active_session (self st)) as [s|]; [done|].
    by destruct (session_factory (world st)) as [[e|s] w].
  - intros ep v st1. apply dispatch_session.
Qed.

(** ** Discovery *)

Lemma bind_emits {A B} P (m : M A) (f : A → M B) :
  emits P m → (∀ x, emits P (f x)) → emits P (bind m f).
Proof.
  intros Hm Hf st. unfold bind. destruct (Hm st) as (evs1 & Ht1 & HP1).
  destruct (m st) as [[e|x] st1]; simpl in *; [by exists evs1|].
  destruct (Hf x st1) as (evs2 & Ht2 & HP2).
  exists (evs1 ++ evs2). split; [by rewrite Ht2, Ht1, app_assoc|by apply Forall_app].
Qed.

Lemma silent_emits {A} P (m : M A) : (∀ st, trace (m st).2 = trace st) → emits P m.
Proof. intros Hm st. exists []. by rewrite app_nil_r, Hm. Qed.

Lemma log_emits (P : Event → Prop) e : P e → emits P (log e).
Proof. intros He st. exists [e]. split; [done|by constructor]. Qed.

Lemma send_emits (P : Event → Prop) requests timeout full_res :
  (∀ e, is_transport e = true → P e) → emits P (send requests timeout full_res).
Proof.
  intros HP st. destruct (send_log_transport requests timeout full_res st) as (evs & Ht & Hevs).
  exists evs. split; [done|]. by eapply Forall_impl.
Qed.

Lemma list_api_emits (P : Event → Prop) name preferred fields :
  P (EvApisList name preferred fields) → (∀ e, is_transport e = true → P e) →
  emits P (list_api name preferred fields).
Proof.
  intros Hl Ht. unfold list_api.
  apply bind_emits; [by apply log_emits|]. intros _.
  apply bind_emits; [by apply silent_emits|]. intros request. by apply send_emits.
Qed.

Lemma discover_emits (P : Event → Prop) api_name api_version validate :
  (∀ name preferred fields, P (EvApisList name preferred fields)) →
  (∀ api version, P (EvApisGetRest api version false)) →
  (∀ e, is_transport e = true → P e) →
  emits P (discover api_name api_version validate).
Proof.
  intros Hl Hg Ht. unfold discover. apply bind_emits.
  - destruct api_version; try by apply silent_emits.
    apply bind_emits; [by apply list_api_emits|]. intros discovery_list.
    apply bind_emits; [by apply silent_emits|]. intros items.
    destruct (Py.truthy items); [|by apply silent_emits].
    repeat (apply bind_emits; [by apply silent_emits|]; intros ?).
    by apply silent_emits.
  - intros nv. apply bind_emits; [by apply log_emits|]. intros _.
    apply bind_emits; [by apply silent_emits|]. intros request.
    apply bind_emits; [by apply send_emits|]. intros doc. by apply silent_emits.
Qed.

(** Two computations that start alike and differ only in how they end. *)
Lemma bind_same_prefix {A B} (R : Exc + B → Exc + B → Prop) (m : M A) (f f' : A → M B) :
  (∀ e, R (inl e) (inl e)) →
  (∀ x st, (f x st).2 = (f' x st).2 ∧ R (f x st).1 (f' x st).1) →
  ∀ st, (bind m f st).2 = (bind m f' st).2 ∧ R (bind m f st).1 (bind m f' st).1.
Proof.
  intros HR Hf st. unfold bind. destruct (m st) as [[e|x] st1]; simpl; [done|apply Hf].
Qed.

(** C9. [discover] without a version, when the lookup of the preferred
    version returns a directory whose ["items"] is the empty list, raises
    [ValueError "Invalid API name"] in the state the lookup left: nothing
    happens after the lookup, and the lookup itself constructs no
    [getRest] request, so none is constructed or sent at all. *)
Theorem discover_unknown_name_fails api_name validate st discovery_list st1 :
  list_api api_name (VBool true) VNone st = (inr discovery_list, st1) →
  Py.getitem_str discovery_list "items" = inr (VList []) →
  discover api_name VNone validate st = (inl (ValueError "Invalid API name"), st1) ∧
  ∃ evs, trace st1 = trace st ++ evs ∧ Forall (λ e, is_getRest e = false) evs.
Proof.
  intros Hlist Hitems. split.
  - unfold discover. unfold bind at 1. unfold bind at 1. rewrite Hlist.
    unfold bind at 1. unfold lift at 1. by rewrite Hitems.
  - destruct (list_api_emits (λ e, is_getRest e = false) api_name (VBool true) VNone)
      with (st := st) as (evs & Ht & Hevs); [done|by intros []|].
    rewrite Hlist in Ht. by exists evs.
Qed.

(** Two calls of [discover] that differ only in [validate] leave the same
    state and differ only in the flag of what they return. *)
Lemma discover_validate_frame api_name api_version validate validate' st :
  let run := discover api_name api_version validate st in
  let run' := discover api_name api_version validate' st in
  run.2 = run'.2 ∧
  match run.1, run'.1 with
  | inr g, inr g' =>
      discovery_document g = discovery_document g' ∧
      validate_flag g = validate ∧ validate_flag g' = validate'
  | inl e, inl e' => e = e'
  | _, _ => False
  end ∧
  ∃ evs, trace run.2 = trace st ++ evs ∧
    ∀ api version flag, EvApisGetRest api version flag ∈ evs → flag = false.
Proof.
  simpl.
  pose (R := λ r r' : Exc + GoogleAPI,
          match r, r' with
          | inr g, inr g' =>
              discovery_document g = discovery_document g' ∧
              validate_flag g = validate ∧ validate_flag g' = validate'
          | inl e, inl e' => e = e'
          | _, _ => False
          end).
  assert (∀ e, R (inl e) (inl e)) as HR by done.
  assert ((discover api_name api_version validate st).2
          = (discover api_name api_version validate' st).2 ∧
          R (discover api_name api_version validate st).1
            (discover api_name api_version validate' st).1) as [Hst Hres].
  { unfold discover.
    do 4 (apply (bind_same_prefix R); [done|]; intros ? ?).
    done. }
  split; [done|]. split; [exact Hres|].
  destruct (discover_emits (λ e, ∀ api version flag, e = EvApisGetRest api version flag → flag = false)
              api_name api_version validate) with (st := st) as (evs & Ht & Hevs).
  - done.
  - intros api version api' version' flag. by intros [= _ _ <-].
  - by intros [].
  - exists evs. split; [done|]. intros api version flag Hin.
    eapply Forall_forall in Hevs; [|done]. by eapply Hevs.
Qed.

(** The fetch that ends [discover]: the request is the one that
    [apis.getRest] builds with validation off, and the document is what the
    session returned for it. *)
Lemma discover_fetch name version validate st0 g st' :
  bind (log (EvApisGetRest name version false)) (λ _,
  bind (lift (apis_getRest name version false)) (λ request,
  bind (as_anon [request] None false) (λ doc,
  ret (mkGoogleAPI doc validate)))) st0 = (inr g, st') →
  ∃ request s w,
    apis_getRest name version false = inr request ∧
    last (trace st') = Some (EvSessionSend s [request] None false) ∧
    session_send s [request] None false w = (inr (discovery_document g), world st') ∧
    validate_flag g = validate.
Proof.
  unfold bind at 1. unfold log at 1. unfold bind at 1. unfold lift at 1.
  destruct (apis_getRest name version false) as [e|request]; [done|].
  unfold bind at 1. unfold as_anon.
  match goal with |- context [send ?rs ?t ?f ?s0] =>
    destruct (send rs t f s0) as [[e|doc] st1] eqn:Hsend
  end; [done|].
  unfold ret. intros [= <- <-].
  apply send_result_from_session in Hsend as (s & _ & Hs & _ & Hlast).
  by eexists request, s, _.
Qed.

(** C10. The [validate] argument of [discover] reaches nothing but the
    flag of the [GoogleAPI] returned.  The document request is built by
    [apis.getRest] with [validate=False], from the caller's name and
    version when a version is given and from the directory's otherwise;
    when building it raises, [discover] raises that; otherwise that
    request, alone, is what is sent, and what [discover] returns is the
    [GoogleAPI] over the document that the session returned for it,
    carrying the caller's [validate].  Two calls that differ only in
    [validate] leave the same state (same log, same world, same [self])
    and fail alike or return objects over the same document, each with its
    own flag; every [getRest] construction logged has the flag off. *)
Theorem discover_validate_only_marks_result api_name api_version validate validate' st :
  let run := discover api_name api_version validate st in
  let run' := discover api_name api_version validate' st in
  (run.2 = run'.2 ∧
   match run.1, run'.1 with
   | inr g, inr g' =>
       discovery_document g = discovery_document g' ∧
       validate_flag g = validate ∧ validate_flag g' = validate'
   | inl e, inl e' => e = e'
   | _, _ => False
   end ∧
   ∃ evs, trace run.2 = trace st ++ evs ∧
     ∀ api version flag, EvApisGetRest api version flag ∈ evs → flag = false) ∧
  (∀ g st', run = (inr g, st') →
     ∃ name version request s w,
       (api_version ≠ VNone → name = api_name ∧ version = api_version) ∧
       apis_getRest name version false = inr request ∧
       last (trace st') = Some (EvSessionSend s [request] None false) ∧
       session_send s [request] None false w = (inr (discovery_document g), world st') ∧
       validate_flag g = validate) ∧
  (api_version ≠ VNone →
     run = match apis_getRest api_name api_version false with
           | inl e => (inl e, logged st [EvApisGetRest api_name api_version false])
           | inr request =>
               let '(r, st1) := as_anon [request] None false
                                  (logged st [EvApisGetRest api_name api_version false]) in
               (match r with
                | inr doc => inr (mkGoogleAPI doc validate)
                | inl e => inl e
                end, st1)
           end).
Proof.
  simpl. split; [apply discover_validate_frame|]. split.
  - intros g st'. unfold discover. unfold bind at 1.
    match goal with |- context [match ?X with pair _ _ => _ end] =>
      destruct X as [[e|nv] st0] eqn:Hres
    end; [done|].
    intros (request & s & w & Hreq & Hlast & Hs & Hflag)%discover_fetch.
    exists nv.1, nv.2, request, s, w. split; [|done].
    intros Hv. destruct api_version; try done; unfold ret in Hres; by injection Hres as <- _.
  - intros Hv.
    assert (discover api_name api_version validate st
            = bind (log (EvApisGetRest api_name api_version false)) (λ _,
              bind (lift (apis_getRest api_name api_version false)) (λ request,
              bind (as_anon [request] None false) (λ doc,
              ret (mkGoogleAPI doc validate)))) st) as ->.
    { unfold discover. by destruct api_version. }
    unfold bind at 1. unfold log at 1. unfold bind at 1. unfold lift at 1.
    destruct (apis_getRest api_name api_version false) as [e|request]; [done|].
    unfold bind at 1. unfold logged. simpl.
    by destruct (as_anon [request] None false _) as [[e|doc] st1].
Qed.

End ClientFacts.

(** * Properties of the abstract session *)

Module abc_facts.
Import abc.

Section New.
Context {Args Instance : Type}.
Variable super_new : PyClass → Args → Exc + Instance.

(** [send] is the one coroutine function among the members of
    [AbstractSession]. *)
Lemma parent_abstract_coros_send :
  (getmembers AbstractSession_members iscoroutinefunction).*1 = ["send"].
Proof. reflexivity. Qed.

(** Attribute lookup of an abstract coroutine on a subclass always finds
    something: the override nearest in the resolution order, or the
    abstract method itself. *)
Lemma getattr_send cls :
  getattr cls "send"
  = inr (default (mkMember "<function AbstractSession.send>" true)
                 (lookup_mro "send" (namespaces cls))).
Proof. unfold getattr. by destruct (lookup_mro "send" (namespaces cls)). Qed.

(** The check of [__new__] on a subclass [cls] of [AbstractSession],
    whatever constructor it resumes with: [send] is
    the only abstract coroutine, [getattr(cls, "send")] resolves to the
    subclass's implementation [child_method], and [__new__] raises
    [RuntimeError "<child_method> must be a coroutine"] when that
    implementation is not a coroutine function, and otherwise hands
    over to the constructor it inherits, with the same arguments. *)
Lemma new_enforces_coroutine_contract cls args :
  (getmembers AbstractSession_members iscoroutinefunction).*1 = ["send"] ∧
  ∃ child_method,
    getattr cls "send" = inr child_method ∧
    __new__ super_new cls args =
      if iscoroutinefunction child_method then super_new cls args
      else inl (RuntimeError (repr child_method ++ " must be a coroutine")%string).
Proof.
  split; [reflexivity|]. eexists. split; [apply getattr_send|].
  unfold __new__. cbn [getmembers AbstractSession_members filter list_filter].
  simpl. rewrite getattr_send.
  by destruct (iscoroutinefunction _).
Qed.
End New.

End abc_facts.

(** * Construction of a session *)

Module construction_facts.
Import abc builtins.

(** A subclass whose [send] is a coroutine function is built normally
    when it is built without arguments. *)
Lemma new_conforming_without_arguments cls child_method :
  lookup_mro "send" (namespaces cls) = Some child_method →
  iscoroutinefunction child_method = true →
  __new__ object_new cls (mkArguments [] []) = inr (mkInstance (cls_name cls)).
Proof.
  intros Hlook Hco.
  destruct (abc_facts.new_enforces_coroutine_contract object_new cls (mkArguments [] []))
    as (_ & m & Hget & ->).
  rewrite abc_facts.getattr_send, Hlook in Hget. injection Hget as <-.
  rewrite Hco. unfold object_new, is_abstract. simpl. by rewrite Hlook.
Qed.

(** A subclass whose [send] is not a coroutine function is refused with
    the [RuntimeError], with or without arguments. *)
Lemma new_nonconforming_refused cls a child_method :
  getattr cls "send" = inr child_method →
  iscoroutinefunction child_method = false →
  __new__ object_new cls a
  = inl (RuntimeError (repr child_method ++ " must be a coroutine")%string).
Proof.
  intros Hget Hco.
  destruct (abc_facts.new_enforces_coroutine_contract object_new cls a)
    as (_ & m & Hget' & ->).
  rewrite Hget in Hget'. injection Hget' as <-. by rewrite Hco.
Qed.

(** C8, on the code. A subclass, all of whose overriding methods are
    coroutine functions, that is built with any argument of its own is not
    built: [__new__] passes the check and forwards the arguments to
    [object.__new__], which raises [TypeError] on them. *)
Theorem new_conforming_with_arguments_raises cls a child_method :
  getattr cls "send" = inr child_method →
  iscoroutinefunction child_method = true →
  excess_args a = true →
  __new__ object_new cls a
  = inl (TypeError "object.__new__() takes exactly one argument (the type to instantiate)").
Proof.
  intros Hget Hco Hargs.
  destruct (abc_facts.new_enforces_coroutine_contract object_new cls a)
    as (_ & m & Hget' & ->).
  rewrite Hget in Hget'. injection Hget' as <-.
  rewrite Hco. unfold object_new. by rewrite Hargs.
Qed.

(** The session of the docstring of [Aiogoogle], built as the docstring
    builds it. *)
Lemma custom_session_with_arguments :
  getattr CustomSession "send" = inr (mkMember "<function Session.send>" true) ∧
  excess_args custom_arguments = true ∧
  __new__ object_new CustomSession custom_arguments
  = inl (TypeError "object.__new__() takes exactly one argument (the type to instantiate)") ∧
  __new__ object_new CustomSession (mkArguments [] []) = inr (mkInstance "Session").
Proof.
  split; [reflexivity|]. split; [reflexivity|]. split; [|reflexivity].
  apply (new_conforming_with_arguments_raises CustomSession custom_arguments
           (mkMember "<function Session.send>" true)); reflexivity.
Defined.

End construction_facts.

(** * The properties on concrete orchestrators *)

Module Scenario_facts.
Import Scenario.
#[local] Existing Instance listing.

(** ** Stored credentials and an explicit argument *)

(** C1, as stated, fails. The orchestrator stores [bob]'s credentials and
    the caller passes [alice]'s, which have expired: [as_user] refreshes
    [alice]'s and writes them over the stored default, although the call
    did not use the stored default. *)
Lemma as_user_explicit_creds_overwrite_default :
  let st := fresh listing None (Some Demo.bob) (Some Demo.client) Demo.world0 in
  let st' := (as_user (C:=listing) [resource] None false (Some Demo.alice) st).2 in
  py_or (C:=listing) (Some Demo.alice) (user_creds (self st)) = Some Demo.alice ∧
  trace st' = [EvRefresh (C:=listing) Demo.alice (Some Demo.client);
               EvOauth2Authorize resource alice_refreshed;
               EvSessionFactory (inr 0%nat);
               EvSessionSend 0%nat [Demo.oauth2_authorize resource alice_refreshed] None false] ∧
  user_creds (self st) = Some Demo.bob ∧
  user_creds (self st') = Some alice_refreshed ∧
  user_creds (self st') ≠ user_creds (self st).
Proof. repeat split; try reflexivity. vm_compute. discriminate. Qed.

Lemma as_user_stores_refreshed_default :
  let st := fresh listing None (Some Demo.alice) (Some Demo.client) Demo.world0 in
  (py_or (C:=listing) None (user_creds (self st)) = Some Demo.alice ∧
   oauth2_is_expired (Collaborators:=listing) Demo.alice (world st) = true ∧
   oauth2_refresh (Collaborators:=listing) Demo.alice (client_creds (self st)) (world st)
     = (inr alice_refreshed, Demo.world0)) ∧
  let a' := self (as_user (C:=listing) [resource] None false None st).2 in
  user_creds a' = Some alice_refreshed ∧
  (user_creds a' = Some alice_refreshed ↔ is_Some (user_creds (self st))) ∧
  (@None Demo.UserCreds = None → user_creds a' = Some alice_refreshed) ∧
  api_key a' = api_key (self st) ∧ client_creds a' = client_creds (self st).
Proof.
  split; [repeat split|].
  apply (as_user_stores_refreshed_iff_default_set (C:=listing) [resource] None false None
           (fresh listing None (Some Demo.alice) (Some Demo.client) Demo.world0)
           Demo.alice alice_refreshed Demo.world0); reflexivity.
Defined.

(** ** The API key argument *)

(** C2, on the code. An orchestrator without a stored key, called with
    an explicit key, raises the credentials-missing [TypeError] and does
    nothing else; an orchestrator with a stored key, called with another
    explicit key, sends the request authorized with the stored one. *)
Theorem as_api_key_ignores_explicit_key :
  (let st := fresh listing None None None Demo.world0 in
   as_api_key (C:=listing) [resource] None false (Some "explicit-key") st
   = (inl (TypeError "No API key found"), st)) ∧
  (let st := fresh listing (Some "stored-key") None None Demo.world0 in
   trace (as_api_key (C:=listing) [resource] None false (Some "explicit-key") st).2
   = [EvApiKeyAuthorize (C:=listing) resource "stored-key";
      EvSessionFactory (inr 0%nat);
      EvSessionSend 0%nat [Demo.api_key_authorize resource "stored-key"] None false]).
Proof. split; reflexivity. Qed.

(** ** Witnesses *)

Lemma as_user_refreshes_once_expired :
  let st := fresh listing None None (Some Demo.client) Demo.world0 in
  let run := as_user (C:=listing) [resource; resource] None false (Some Demo.alice) st in
  let batch := map (λ r, Demo.oauth2_authorize r alice_refreshed) [resource; resource] in
  py_or (C:=listing) (Some Demo.alice) (user_creds (self st)) = Some Demo.alice ∧
  oauth2_is_expired (Collaborators:=listing) Demo.alice (world st) = true ∧
  oauth2_refresh (Collaborators:=listing) Demo.alice (client_creds (self st)) (world st)
  = (inr alice_refreshed, Demo.world0) ∧
  run = send (C:=listing) batch None false
          {| self := refreshed_self (C:=listing) alice_refreshed (self st);
             world := Demo.world0;
             trace := trace st ++ EvRefresh (C:=listing) Demo.alice (Some Demo.client)
                        :: map (λ r, EvOauth2Authorize (C:=listing) r alice_refreshed)
                             [resource; resource] |} ∧
  trace run.2 = [EvRefresh (C:=listing) Demo.alice (Some Demo.client);
                 EvOauth2Authorize resource alice_refreshed;
                 EvOauth2Authorize resource alice_refreshed;
                 EvSessionFactory (inr 0%nat);
                 EvSessionSend 0%nat batch None false] ∧
  run.1 = (session_send (Collaborators:=listing) 0%nat batch None false
             {| Demo.now := 2000; Demo.sessions_made := 1 |}).1.
Proof.
  split; [reflexivity|]. split; [reflexivity|]. split; [reflexivity|].
  destruct (as_user_refreshes_once_before_authorizing (C:=listing)
              [resource; resource] None false (Some Demo.alice)
              (fresh listing None None (Some Demo.client) Demo.world0)
              Demo.alice eq_refl) as (_ & Hrun & _).
  split; [exact Hrun|]. split; reflexivity.
Defined.

Lemma no_credentials_at_all :
  let st := fresh listing (Some "stored-key") None (Some Demo.client) Demo.world0 in
  user_creds (self st) = None ∧
  as_user (C:=listing) [resource] None false None st
  = (inl (TypeError "No user credentials were found"), st).
Proof.
  split; [reflexivity|].
  apply (as_user_without_credentials_fails_first (C:=listing)). reflexivity.
Defined.


Lemma discover_unknown_name :
  let st := fresh unwrapping None None None Demo.world0 in
  ∃ discovery_list st1,
    list_api (C:=unwrapping) (VStr "nosuchapi") (VBool true) VNone st
    = (inr discovery_list, st1) ∧
    Py.getitem_str discovery_list "items" = inr (VList []) ∧
    discover (C:=unwrapping) (VStr "nosuchapi") VNone true st
    = (inl (ValueError "Invalid API name"), st1) ∧
    ∃ evs, trace st1 = trace st ++ evs ∧ Forall (λ e, is_getRest e = false) evs.
Proof.
  eexists _, _. split; [vm_compute; reflexivity|]. split; [reflexivity|].
  eapply (discover_unknown_name_fails (C:=unwrapping)); [vm_compute; reflexivity|reflexivity].
Defined.

(** ** Further runs *)

(** A known name is resolved to its preferred version and fetched. *)
Example discover_youtube :
  let st := fresh unwrapping None None None Demo.world0 in
  (discover (C:=unwrapping) (VStr "youtube") VNone false st).1
  = inr (mkGoogleAPI (VDict [("name", VStr "youtube"); ("version", VStr "v3")]) false).
Proof. reflexivity. Qed.

(** A session class whose [send] is a plain function, and one whose
    [send] is a coroutine function. *)
Example new_rejects_plain_send :
  let cls := abc.mkPyClass "Blocking"
               [ {[ "send" := abc.mkMember "<function Blocking.send>" false ]} ] in
  abc.__new__ (λ c (_ : unit), inr (abc.cls_name c)) cls tt
  = inl (RuntimeError "<function Blocking.send> must be a coroutine").
Proof. reflexivity. Qed.

Example new_accepts_coroutine_send :
  let cls := abc.mkPyClass "Async"
               [ {[ "send" := abc.mkMember "<function Async.send>" true ]} ] in
  abc.__new__ (λ c (_ : unit), inr (abc.cls_name c)) cls tt = inr "Async".
Proof. reflexivity. Qed.

End Scenario_facts.

(** * Further properties of the orchestrator *)

Section MoreClientFacts.
Context `{C : Collaborators}.

Implicit Types (st : St) (a : Aiogoogle) (evs : list Event) (requests : list Request).

(** ** What [send] depends on *)

(** [send] reads [self] and the world, never the log. *)
Lemma send_same_self_world requests timeout full_res st1 st2 :
  self st1 = self st2 → world st1 = world st2 →
  (send requests timeout full_res st1).1 = (send requests timeout full_res st2).1 ∧
  self (send requests timeout full_res st1).2 = self (send requests timeout full_res st2).2 ∧
  world (send requests timeout full_res st1).2 = world (send requests timeout full_res st2).2.
Proof.
  intros Hs Hw. rewrite !send_run, Hs, Hw.
  destruct (active_session (self st2)) as [s|].
  - by destruct (session_send s requests timeout full_res (world st2)).
  - destruct (session_factory (world st2)) as [[e|s] w]; [done|].
    by destruct (session_send s requests timeout full_res w).
Qed.

(** X1. With effective credentials that have not expired, [as_user] is the
    anonymous dispatch of the batch authorized with them: same result, same
    [self] and same world afterwards; in particular the stored
    [user_creds] are what they were. *)
Theorem as_user_unexpired_is_anon_of_authorized requests timeout full_res arg st uc :
  py_or arg (user_creds (self st)) = Some uc →
  oauth2_is_expired uc (world st) = false →
  let run := as_user requests timeout full_res arg st in
  let anon := as_anon (map (λ r, oauth2_authorize r uc) requests) timeout full_res st in
  run.1 = anon.1 ∧ self run.2 = self anon.2 ∧ world run.2 = world anon.2 ∧
  user_creds (self run.2) = user_creds (self st).
Proof.
  intros Huc Hexp. simpl. rewrite as_user_run, Huc, Hexp. unfold as_anon.
  match goal with |- context [send ?rs _ _ (logged st ?l)] =>
    destruct (send_same_self_world rs timeout full_res (logged st l) st) as (H1 & H2 & H3);
      [done|done|];
    destruct (send_keeps_credentials rs timeout full_res (logged st l)) as (Hu & _)
  end.
  by rewrite H1, H3, Hu, H2.
Qed.

(** X2. With a stored key, [as_api_key] is the anonymous dispatch of the
    batch authorized with that key: same result, same [self] and same world
    afterwards. *)
Theorem as_api_key_is_anon_of_authorized requests timeout full_res arg st k :
  api_key (self st) = Some k →
  let run := as_api_key requests timeout full_res arg st in
  let anon := as_anon (map (λ r, api_key_authorize r k) requests) timeout full_res st in
  run.1 = anon.1 ∧ self run.2 = self anon.2 ∧ world run.2 = world anon.2.
Proof.
  intros Hk. simpl. rewrite as_api_key_run, Hk. unfold as_anon.
  by apply send_same_self_world.
Qed.

(** X3. When the refresh of expired credentials raises, [as_user] raises
    the same exception with [self] as it was: the stored credentials are
    not touched, nothing is authorized, no session is created and nothing
    is sent; the refresh is all that the log gains. *)
Theorem as_user_failed_refresh_changes_nothing requests timeout full_res arg st uc e w :
  py_or arg (user_creds (self st)) = Some uc →
  oauth2_is_expired uc (world st) = true →
  oauth2_refresh uc (client_creds (self st)) (world st) = (inl e, w) →
  as_user requests timeout full_res arg st
  = (inl e, {| self := self st; world := w;
               trace := trace st ++ [EvRefresh uc (client_creds (self st))] |}).
Proof. intros Huc Hexp Href. by rewrite as_user_run, Huc, Hexp, Href. Qed.

(** X4. Credentials passed to [as_user] that are falsy (an empty
    dictionary) count as not passed: the call behaves as the call without
    the argument, on the stored default if there is one. *)
Theorem as_user_falsy_argument_uses_default requests timeout full_res c st :
  user_creds_truthy c = false →
  as_user requests timeout full_res (Some c) st = as_user requests timeout full_res None st.
Proof. intros Hc. rewrite !as_user_run. simpl. by rewrite Hc. Qed.

(** ** One batch per dispatch *)

Lemma sends_app evs1 evs2 : sends (evs1 ++ evs2) = sends evs1 + sends evs2.
Proof. induction evs1 as [|e evs1 IH]; simpl; [done|]. rewrite IH. lia. Qed.

Lemma sends_map_none {A} (f : A → Event) (l : list A) :
  (∀ x, is_send (f x) = false) → sends (map f l) = 0.
Proof. intros Hf. induction l as [|x l IH]; simpl; [done|]. by rewrite Hf, IH. Qed.

Lemma send_sends_n requests timeout full_res : sends_n 1 (send requests timeout full_res).
Proof.
  intros st. rewrite send_run.
  destruct (active_session (self st)) as [s|].
  - destruct (session_send s requests timeout full_res (world st)) as [r w]; simpl.
    eexists. split; [done|]. simpl. split; [lia|done].
  - destruct (session_factory (world st)) as [[e|s] w]; simpl.
    + eexists. split; [done|]. simpl. split; [lia|done].
    + destruct (session_send s requests timeout full_res w) as [r w']; simpl.
      eexists. split; [done|]. simpl. split; [lia|done].
Qed.

(** Events that are no sends, logged before a computation, do not count. *)
Lemma sends_n_after {A} n (m : M A) st st1 pre :
  sends_n n m → trace st1 = trace st ++ pre → sends pre = 0 →
  ∃ evs, trace (m st1).2 = trace st ++ evs ∧ (sends evs ≤ n)%nat ∧
    ∀ x, (m st1).1 = inr x → sends evs = n.
Proof.
  intros Hm Ht Hpre. destruct (Hm st1) as (evs & Ht1 & Hle & Heq).
  exists (pre ++ evs). rewrite sends_app, Hpre. split; [by rewrite Ht1, Ht, app_assoc|].
  split; [lia|]. intros x Hx. by rewrite (Heq x Hx).
Qed.

Lemma silent_sends_0 {A} (m : M A) : (∀ st, trace (m st).2 = trace st) → sends_n 0 m.
Proof. intros Hm st. exists []. rewrite app_nil_r, Hm. simpl. split; [done|]. split; [lia|done]. Qed.

Lemma log_sends_0 e : is_send e = false → sends_n 0 (log e).
Proof. intros He st. exists [e]. simpl. rewrite He. split; [done|]. split; [lia|done]. Qed.

Lemma bind_sends_n {A B} n1 n2 (m : M A) (f : A → M B) :
  sends_n n1 m → (∀ x, sends_n n2 (f x)) → sends_n (n1 + n2) (bind m f).
Proof.
  intros Hm Hf st. unfold bind. destruct (Hm st) as (evs1 & Ht1 & Hle1 & Heq1).
  destruct (m st) as [[e|x] st1]; simpl in *.
  - exists evs1. split; [done|]. split; [lia|done].
  - destruct (Hf x st1) as (evs2 & Ht2 & Hle2 & Heq2).
    exists (evs1 ++ evs2). rewrite sends_app. split; [by rewrite Ht2, Ht1, app_assoc|].
    split; [lia|]. intros y Hy. by rewrite (Heq1 x eq_refl), (Heq2 y Hy).
Qed.

(** X5. No entry point retries or splits a batch: one call hands at most
    one batch to the session, and exactly one whenever it returns. *)
Theorem dispatch_sends_one_batch ep requests timeout full_res st :
  ∃ evs, trace (dispatch ep requests timeout full_res st).2 = trace st ++ evs ∧
    (sends evs ≤ 1)%nat ∧
    ∀ v, (dispatch ep requests timeout full_res st).1 = inr v → sends evs = 1.
Proof.
  destruct ep as [arg|arg|]; simpl.
  - rewrite as_user_run.
    destruct (py_or arg (user_creds (self st))) as [uc|];
      [|exists []; rewrite app_nil_r; simpl; split; [done|]; split; [lia|done]].
    destruct (oauth2_is_expired uc (world st)).
    + destruct (oauth2_refresh uc (client_creds (self st)) (world st)) as [[e|uc'] w].
      * eexists. split; [done|]. simpl. split; [lia|done].
      * eapply sends_n_after; [apply send_sends_n|done|].
        simpl. by apply sends_map_none.
    + eapply sends_n_after; [apply send_sends_n|done|]. by apply sends_map_none.
  - rewrite as_api_key_run.
    destruct (api_key (self st)) as [k|];
      [|exists []; rewrite app_nil_r; simpl; split; [done|]; split; [lia|done]].
    eapply sends_n_after; [apply send_sends_n|done|]. by apply sends_map_none.
  - apply send_sends_n.
Qed.

Lemma send_returns_session_value requests timeout full_res st v st' :
  send requests timeout full_res st = (inr v, st') →
  ∃ s w, last (trace st') = Some (EvSessionSend s requests timeout full_res) ∧
    session_send s requests timeout full_res w = (inr v, world st').
Proof.
  rewrite send_run.
  destruct (active_session (self st)) as [s|].
  - destruct (session_send s requests timeout full_res (world st)) as [r w] eqn:Hs.
    intros [= -> <-]. exists s, (world st). simpl. by rewrite last_snoc.
  - destruct (session_factory (world st)) as [[e|s] w]; [done|].
    destruct (session_send s requests timeout full_res w) as [r w'] eqn:Hs.
    intros [= -> <-]. exists s, w. simpl. by rewrite last_app.
Qed.

(** X6. An entry point does nothing to the responses: whatever it returns
    is the value that the session's [send] returned for the batch it was
    last handed, called with the caller's [timeout] and [full_res], and the
    world is left as that [send] left it. *)
Theorem dispatch_returns_what_session_returned ep requests timeout full_res st v st' :
  dispatch ep requests timeout full_res st = (inr v, st') →
  ∃ s batch w, length batch = length requests ∧
    last (trace st') = Some (EvSessionSend s batch timeout full_res) ∧
    session_send s batch timeout full_res w = (inr v, world st').
Proof.
  destruct ep as [arg|arg|]; simpl.
  - rewrite as_user_run.
    destruct (py_or arg (user_creds (self st))) as [uc|]; [|done].
    destruct (oauth2_is_expired uc (world st)).
    + destruct (oauth2_refresh uc (client_creds (self st)) (world st)) as [[e|uc'] w]; [done|].
      intros (s & w0 & Hl & Hs)%send_returns_session_value.
      eexists s, _, w0. split; [|done]. by rewrite length_map.
    + intros (s & w0 & Hl & Hs)%send_returns_session_value.
      eexists s, _, w0. split; [|done]. by rewrite length_map.
  - rewrite as_api_key_run.
    destruct (api_key (self st)) as [k|]; [|done].
    intros (s & w0 & Hl & Hs)%send_returns_session_value.
    eexists s, _, w0. split; [|done]. by rewrite length_map.
  - intros (s & w0 & Hl & Hs)%send_returns_session_value. by exists s, requests, w0.
Qed.

(** ** Discovery *)

(** X7. The directory lookup costs one request, and [discover] one more:
    [discover] hands the session at most one batch when the version is
    given and at most two when it is [None], and exactly that many whenever
    it returns. *)
Theorem discover_request_count api_name api_version validate st :
  let n := match api_version with VNone => 2 | _ => 1 end in
  ∃ evs, trace (discover api_name api_version validate st).2 = trace st ++ evs ∧
    (sends evs ≤ n)%nat ∧
    ∀ g, (discover api_name api_version validate st).1 = inr g → sends evs = n.
Proof.
  assert (∀ name preferred fields, sends_n 1 (list_api name preferred fields)) as Hlist.
  { intros name preferred fields. unfold list_api.
    apply (bind_sends_n 0 1); [by apply log_sends_0|]. intros _.
    apply (bind_sends_n 0 1); [by apply silent_sends_0|]. intros request.
    apply send_sends_n. }
  assert (∀ nv : Value * Value, sends_n 1
            (bind (log (EvApisGetRest nv.1 nv.2 false)) (λ _,
             bind (lift (apis_getRest nv.1 nv.2 false)) (λ request,
             bind (as_anon [request] None false) (λ doc,
             ret (mkGoogleAPI doc validate)))))) as Hrest.
  { intros nv.
    apply (bind_sends_n 0 1); [by apply log_sends_0|]. intros _.
    apply (bind_sends_n 0 1); [by apply silent_sends_0|]. intros request.
    apply (bind_sends_n 1 0); [apply send_sends_n|]. intros doc.
    by apply silent_sends_0. }
  simpl. unfold discover. destruct api_version;
    try (apply (bind_sends_n 0 1); [by apply silent_sends_0|apply Hrest]).
  apply (bind_sends_n 1 1); [|apply Hrest].
  apply (bind_sends_n 1 0); [apply Hlist|]. intros discovery_list.
  apply (bind_sends_n 0 0); [by apply silent_sends_0|]. intros items.
  destruct (Py.truthy items); [|by apply silent_sends_0].
  do 4 (apply (bind_sends_n 0 0); [by apply silent_sends_0|]; intros ?).
  by apply silent_sends_0.
Qed.

(** X8. [discover] without a version is the lookup followed by [discover]
    on what the first item of the directory says: the name and the version
    of that item replace the caller's name. *)
Theorem discover_resolves_preferred_version api_name validate st
    discovery_list st1 items first name version :
  list_api api_name (VBool true) VNone st = (inr discovery_list, st1) →
  Py.getitem_str discovery_list "items" = inr items →
  Py.truthy items = true →
  Py.getitem_0 items = inr first →
  Py.getitem_str first "name" = inr name →
  Py.getitem_str first "version" = inr version →
  version ≠ VNone →
  discover api_name VNone validate st = discover name version validate st1.
Proof.
  intros Hlist Hitems Htruthy Hfirst Hname Hversion Hnone.
  unfold discover. unfold bind at 1. unfold bind at 1. rewrite Hlist.
  unfold bind at 1. unfold lift at 1. rewrite Hitems, Htruthy.
  unfold bind at 1. unfold lift at 1. rewrite Hfirst.
  unfold bind at 1. unfold lift at 1. rewrite Hname.
  unfold bind at 1. unfold lift at 1.
  unfold bind at 1. unfold lift at 1. rewrite Hversion.
  unfold ret at 1.
  by destruct version.
Qed.

(** X9. A directory without an ["items"] entry is not taken for an unknown
    name: [discover] raises [KeyError "items"], in the state the lookup
    left. *)
Theorem discover_directory_without_items api_name validate st entries st1 :
  list_api api_name (VBool true) VNone st = (inr (VDict entries), st1) →
  Py.assoc "items" entries = None →
  discover api_name VNone validate st = (inl (KeyError (VStr "items")), st1).
Proof.
  intros Hlist Hnone.
  unfold discover. unfold bind at 1. unfold bind at 1. rewrite Hlist.
  unfold bind at 1. unfold lift at 1. simpl. by rewrite Hnone.
Qed.

(** X10. When the request of the directory lookup cannot be built,
    [list_api] raises what building it raised: no session is created,
    nothing is sent, [self] and the world are as they were. *)
Theorem list_api_invalid_request name preferred fields e st :
  apis_list name preferred fields = inl e →
  list_api name preferred fields st
  = (inl e, logged st [EvApisList name preferred fields]).
Proof.
  intros He. unfold list_api, bind, log, lift. simpl. by rewrite He.
Qed.

(** X11. With a version given, [discover] looks nothing up: the first
    thing it does is build the [getRest] request from the caller's own name
    and version, and all that follows is the transport's. *)
Theorem discover_with_version_skips_lookup api_name api_version validate st :
  api_version ≠ VNone →
  ∃ evs, trace (discover api_name api_version validate st).2
         = trace st ++ EvApisGetRest api_name api_version false :: evs ∧
    Forall (λ e, is_transport e = true) evs.
Proof.
  intros Hv.
  assert (discover api_name api_version validate st
          = bind (log (EvApisGetRest api_name api_version false)) (λ _,
            bind (lift (apis_getRest api_name api_version false)) (λ request,
            bind (as_anon [request] None false) (λ doc,
            ret (mkGoogleAPI doc validate)))) st) as ->.
  { unfold discover. by destruct api_version. }
  unfold bind at 1. unfold log at 1. unfold bind at 1. unfold lift at 1.
  destruct (apis_getRest api_name api_version false) as [e|request].
  - exists []. split; [done|constructor].
  - unfold bind at 1. unfold as_anon.
    match goal with |- context [send ?rs ?t ?f ?s] =>
      destruct (send_log_transport rs t f s) as (sevs & Ht & Hsevs);
      destruct (send rs t f s) as [[e|doc] st2]
    end; simpl in *; exists sevs; rewrite Ht, <- app_assoc; done.
Qed.

(** ** Entering and leaving the context *)

(** X12. Leaving the context does not forget the session: after
    [__aexit__] the session that was left is still the active one, and the
    next dispatch is sent on it, with no new session created. *)
Theorem dispatch_after_exit_reuses_session requests timeout full_res st s :
  active_session (self st) = Some s →
  let st1 := (__aexit__ st).2 in
  active_session (self st1) = Some s ∧
  trace (as_anon requests timeout full_res st1).2
  = trace st ++ [EvSessionExit s; EvSessionSend s requests timeout full_res].
Proof.
  intros Hs. simpl.
  assert ((__aexit__ st).2
          = {| self := self st; world := (session_aexit s (world st)).2;
               trace := trace st ++ [EvSessionExit s] |}) as ->.
  { unfold __aexit__, bind, get_self, log, io. simpl. rewrite Hs. simpl.
    by destruct (session_aexit s (world st)). }
  split; [done|]. unfold as_anon. rewrite send_run. simpl. rewrite Hs.
  destruct (session_send s requests timeout full_res _). simpl. by rewrite <- app_assoc.
Qed.

(** X13. When the session cannot be entered, [__aenter__] raises what
    entering raised, and the session it had just created stays the active
    one. *)
Theorem aenter_failure_keeps_session st s w e w' :
  active_session (self st) = None →
  session_factory (world st) = (inr s, w) →
  session_aenter s w = (inl e, w') →
  __aenter__ st
  = (inl e, {| self := set_active_session (Some s) (self st); world := w';
               trace := trace st ++ [EvSessionFactory (inr s); EvSessionEnter s] |}).
Proof.
  intros Hnone Hfac Henter. unfold __aenter__. unfold bind at 1.
  rewrite ensure_session_set_run, Hnone, Hfac.
  unfold bind, get_self, log, io. simpl. rewrite Henter. by rewrite <- app_assoc.
Qed.

(** ** What no call changes *)

Lemma bind_keeps_shape {A B} (m : M A) (f : A → M B) :
  keeps_shape m → (∀ x, keeps_shape (f x)) → keeps_shape (bind m f).
Proof.
  intros Hm Hf st. unfold bind. specialize (Hm st).
  destruct (m st) as [[e|x] st1]; simpl in *; [done|]. by rewrite Hf.
Qed.

Lemma same_self_keeps_shape {A} (m : M A) :
  (∀ st, self (m st).2 = self st) → keeps_shape m.
Proof. intros Hm st. by rewrite Hm. Qed.

Lemma io_same_self {A} (f : World → (Exc + A) * World) st : self (io f st).2 = self st.
Proof. unfold io. by destruct (f (world st)). Qed.

Lemma send_keeps_shape requests timeout full_res : keeps_shape (send requests timeout full_res).
Proof.
  intros st. unfold creds_shape.
  destruct (send_keeps_credentials requests timeout full_res st) as (-> & -> & ->). done.
Qed.

Lemma as_user_keeps_shape requests timeout full_res arg :
  keeps_shape (as_user requests timeout full_res arg).
Proof.
  intros st. rewrite as_user_run.
  destruct (py_or arg (user_creds (self st))) as [uc|]; [|done].
  destruct (oauth2_is_expired uc (world st)).
  - destruct (oauth2_refresh uc (client_creds (self st)) (world st)) as [[e|uc'] w]; [done|].
    rewrite send_keeps_shape. simpl. unfold creds_shape, refreshed_self.
    by destruct (user_creds (self st)) eqn:Hu; simpl; rewrite ?Hu.
  - by rewrite send_keeps_shape.
Qed.

Lemma as_api_key_keeps_shape requests timeout full_res arg :
  keeps_shape (as_api_key requests timeout full_res arg).
Proof.
  intros st. rewrite as_api_key_run.
  destruct (api_key (self st)) as [k|]; [|done]. by rewrite send_keeps_shape.
Qed.

Lemma list_api_keeps_shape name preferred fields : keeps_shape (list_api name preferred fields).
Proof.
  unfold list_api. apply bind_keeps_shape; [by apply same_self_keeps_shape|]. intros _.
  apply bind_keeps_shape; [by apply same_self_keeps_shape|]. intros request.
  apply send_keeps_shape.
Qed.

Lemma discover_keeps_shape api_name api_version validate :
  keeps_shape (discover api_name api_version validate).
Proof.
  unfold discover. apply bind_keeps_shape.
  - destruct api_version; try by apply same_self_keeps_shape.
    apply bind_keeps_shape; [apply list_api_keeps_shape|]. intros discovery_list.
    apply bind_keeps_shape; [by apply same_self_keeps_shape|]. intros items.
    destruct (Py.truthy items); [|by apply same_self_keeps_shape].
    do 4 (apply bind_keeps_shape; [by apply same_self_keeps_shape|]; intros ?).
    by apply same_self_keeps_shape.
  - intros nv. apply bind_keeps_shape; [by apply same_self_keeps_shape|]. intros _.
    apply bind_keeps_shape; [by apply same_self_keeps_shape|]. intros request.
    apply bind_keeps_shape; [apply send_keeps_shape|]. intros doc.
    by apply same_self_keeps_shape.
Qed.

Lemma ensure_session_set_keeps_shape : keeps_shape _ensure_session_set.
Proof.
  intros st. rewrite ensure_session_set_run.
  destruct (active_session (self st)); [done|].
  by destruct (session_factory (world st)) as [[e|s] w].
Qed.

Lemma aenter_keeps_shape : keeps_shape __aenter__.
Proof.
  unfold __aenter__. apply bind_keeps_shape; [apply ensure_session_set_keeps_shape|]. intros _.
  apply bind_keeps_shape; [by apply same_self_keeps_shape|]. intros a.
  destruct (active_session a); [|by apply same_self_keeps_shape].
  apply bind_keeps_shape; [by apply same_self_keeps_shape|]. intros _.
  apply same_self_keeps_shape. apply io_same_self.
Qed.

Lemma aexit_keeps_shape : keeps_shape __aexit__.
Proof.
  unfold __aexit__. apply bind_keeps_shape; [by apply same_self_keeps_shape|]. intros a.
  destruct (active_session a); [|by apply same_self_keeps_shape].
  apply bind_keeps_shape; [by apply same_self_keeps_shape|]. intros _.
  apply same_self_keeps_shape. apply io_same_self.
Qed.

(** X14. Over any sequence of calls on one instance, the API key and the
    client credentials of [self] never change, and user credentials are
    stored afterwards exactly when they were stored before: no call stores
    credentials in an orchestrator that had none, and none drops them. *)
Theorem calls_keep_credential_shape cs st :
  let a' := self (run_calls cs st) in
  api_key a' = api_key (self st) ∧
  client_creds a' = client_creds (self st) ∧
  (is_Some (user_creds a') ↔ is_Some (user_creds (self st))).
Proof.
  simpl. assert (creds_shape (self (run_calls cs st)) = creds_shape (self st)) as Hshape.
  { revert st. induction cs as [|c cs IH]; intros st; simpl; [done|].
    rewrite IH. destruct c; simpl.
    - apply as_user_keeps_shape.
    - apply as_api_key_keeps_shape.
    - apply send_keeps_shape.
    - apply list_api_keeps_shape.
    - apply discover_keeps_shape.
    - apply aenter_keeps_shape.
    - apply aexit_keeps_shape. }
  unfold creds_shape in Hshape. injection Hshape as Hk Hc Hu.
  split; [done|]. split; [done|].
  destruct (user_creds (self (run_calls cs st))), (user_creds (self st)); try done;
    split; intros []; done.
Qed.

End MoreClientFacts.

(** * Further properties of the abstract session *)

Module abc_more_facts.
Import abc.

(** X15. The loop of [__new__] over any list of abstract coroutines passes
    exactly when every name of the list resolves, on the subclass, to a
    coroutine function. *)
Theorem check_coros_passes_iff cls (coros : list (string * Member)) :
  check_coros cls coros = inr tt ↔
  Forall (λ coro, ∃ m, getattr cls coro.1 = inr m ∧ iscoroutinefunction m = true) coros.
Proof.
  induction coros as [|coro rest IH]; simpl.
  - split; [constructor|done].
  - destruct (getattr cls coro.1) as [e|m] eqn:Hget.
    + split; [done|]. intros [(m & Hm & _) _]%Forall_cons. by rewrite Hget in Hm.
    + destruct (iscoroutinefunction m) eqn:Hco.
      * rewrite IH. split.
        -- intros Hrest. constructor; [by exists m|done].
        -- by intros [_ Hrest]%Forall_cons.
      * split; [done|]. intros [(m' & Hm' & Hco') _]%Forall_cons.
        rewrite Hget in Hm'. injection Hm' as <-. by rewrite Hco in Hco'.
Qed.

(** X16. When the loop fails, it fails on the first name, in the order of
    the list, whose implementation is not a coroutine function, and the
    [RuntimeError] names that implementation; what comes later in the list
    is not looked at. *)
Theorem check_coros_reports_first_offender cls before name parent after child_method :
  Forall (λ coro, ∃ m, getattr cls coro.1 = inr m ∧ iscoroutinefunction m = true) before →
  getattr cls name = inr child_method →
  iscoroutinefunction child_method = false →
  check_coros cls (before ++ (name, parent) :: after)
  = inl (RuntimeError (repr child_method ++ " must be a coroutine")%string).
Proof.
  intros Hbefore Hget Hco. induction Hbefore as [|coro before (m & Hm & Hmco) _ IH]; simpl.
  - by rewrite Hget, Hco.
  - by rewrite Hm, Hmco.
Qed.

Section New.
Context {Args Instance : Type}.
Variable super_new : PyClass → Args → Exc + Instance.

(** X17. A subclass that defines no [send] anywhere above [AbstractSession]
    passes the check, on the abstract [send] it inherits: [__new__] leaves
    it to the inherited constructor to refuse or build the instance. *)
Theorem new_without_own_send_passes_check cls args :
  Forall (λ ns : gmap string Member, ns !! "send" = None) (namespaces cls) →
  __new__ super_new cls args = super_new cls args.
Proof.
  intros Hnone.
  assert (lookup_mro "send" (namespaces cls) = None) as Hlook.
  { induction Hnone as [|ns rest Hns _ IH]; simpl; [done|]. by rewrite Hns. }
  unfold __new__. cbn [getmembers AbstractSession_members filter list_filter]. simpl.
  rewrite abc_facts.getattr_send, Hlook. done.
Qed.

(** X18. Of several definitions of [send] along the resolution order, the
    nearest decides: a plain function there fails the construction even if
    a base class defines a coroutine, and a coroutine there passes even if
    a base class defines a plain function. *)
Theorem new_nearest_send_decides name ns rest m args :
  ns !! "send" = Some m →
  __new__ super_new (mkPyClass name (ns :: rest)) args =
    if iscoroutinefunction m then super_new (mkPyClass name (ns :: rest)) args
    else inl (RuntimeError (repr m ++ " must be a coroutine")%string).
Proof.
  intros Hns.
  unfold __new__. cbn [getmembers AbstractSession_members filter list_filter]. simpl.
  rewrite abc_facts.getattr_send. simpl. rewrite Hns. simpl.
  by destruct (iscoroutinefunction m).
Qed.

End New.

End abc_more_facts.

(** * Properties of the example handlers *)

Module openid_connect_facts.
Import openid_connect_example.

Section Handlers.
Context `{O : OpenIdConnect}.
Variable globals : Globals.

Implicit Types (args : gmap string (list string)) (st : HSt).

(** Unfolds the handler and splits on everything it branches on. *)
Ltac callback_cases :=
  unfold callback, hbind, hlift, hret, hraise, manager; simpl;
  repeat (match goal with
          | |- context [match args_get ?a ?n with _ => _ end] =>
              destruct (args_get a n) as [?|?] eqn:?
          | |- context [match args_getitem ?a ?n with _ => _ end] =>
              destruct (args_getitem a n) as [?|?] eqn:?
          | |- context [match first_value ?l with _ => _ end] =>
              destruct (first_value l) as [?|?] eqn:?
          | |- context [if str_truthy ?v then _ else _] => destruct (str_truthy v) eqn:?
          | |- context [if negb (String.eqb ?a ?b) then _ else _] =>
              destruct (String.eqb a b) eqn:?
          | |- context [build_user_creds ?g ?c ?n ?v ?w] =>
              destruct (build_user_creds g c n v w) as [[?|?] ?] eqn:?
          | |- context [get_user_info ?u ?w] =>
              destruct (get_user_info u w) as [[?|?] ?] eqn:?
          end; simpl).

(** X19. The grant reaches the token endpoint only for a callback whose
    first [state] value is the server's own [state]: if the handler calls
    the manager at all, the request carried that state. *)
Theorem callback_exchanges_only_for_own_state args st :
  ∃ cs, calls (callback globals args st).2 = calls st ++ cs ∧
    (cs = [] ∨ ∃ rest, args !! "state" = Some (state globals :: rest)).
Proof.
  callback_cases;
    try (exists []; rewrite app_nil_r; split; [done|by left]);
    (eexists; split; [by rewrite <- ?app_assoc|]; right);
    match goal with
    | Hi : args_getitem _ _ = inr ?l, Hf : first_value ?l = inr ?v,
      He : String.eqb ?v _ = true |- _ =>
        apply String.eqb_eq in He; subst v;
        unfold args_getitem in Hi; destruct (args !! "state") as [l'|]; [|done];
        injection Hi as ->; destruct l as [|v' rest]; [done|];
        injection Hf as ->; by exists rest
    end.
Qed.

(** X20. What the handler asks of the manager: nothing, or one exchange of
    the request's [code] under the server's client credentials and nonce
    with verification of the identity token switched off, followed, if the
    exchange succeeded, by one fetch of the user info with the credentials
    that the exchange returned. *)
Theorem callback_exchange_is_unverified args st :
  ∃ cs, calls (callback globals args st).2 = calls st ++ cs ∧
    match cs with
    | [] => True
    | CallBuildUserCreds grant cc n verify :: rest =>
        args_get args "code" = inr grant ∧ cc = CLIENT_CREDS globals ∧
        n = nonce globals ∧ verify = false ∧
        match rest with
        | [] => ∃ e, (callback globals args st).1 = inl (Raised e)
        | [CallGetUserInfo uc] =>
            (build_user_creds grant cc n false (hworld st)).1 = inr uc
        | _ => False
        end
    | _ => False
    end.
Proof.
  callback_cases;
    try (exists []; rewrite app_nil_r; split; [done|done]);
    (eexists; split; [by rewrite <- ?app_assoc|]; simpl);
    repeat split; eauto;
    match goal with H : build_user_creds _ _ _ _ _ = _ |- _ => by rewrite H end.
Qed.

(** X21. An [error] parameter wins over everything else in the request: the
    handler answers with the error and its description, and asks nothing
    of the manager, whether or not the request also carries a [code]. *)
Theorem callback_error_takes_precedence args st err description :
  args_get args "error" = inr (Some err) →
  err ≠ "" →
  args_get args "error_description" = inr description →
  callback globals args st = (inr (json (Some err) description), st).
Proof.
  intros Herr Hne Hdesc. unfold callback, hbind, hlift, hret. rewrite Herr. simpl.
  apply String.eqb_neq in Hne. rewrite Hne. simpl. by rewrite Hdesc.
Qed.

(** X22. A callback with a [code] and a [state] other than the server's is
    refused with [ServerError "NO"] before anything is asked of the
    manager. *)
Theorem callback_wrong_state_refused args st error code returned rest :
  args_get args "error" = inr error → str_truthy error = false →
  args_get args "code" = inr code → str_truthy code = true →
  args !! "state" = Some (returned :: rest) →
  returned ≠ state globals →
  callback globals args st = (inl (ServerError "NO"), st).
Proof.
  intros Herr Herrf Hcode Hcodet Hstate Hne.
  unfold callback, hbind, hlift, hret, hraise. rewrite Herr. simpl. rewrite Herrf, Hcode.
  simpl. rewrite Hcodet. unfold args_getitem. rewrite Hstate. simpl.
  apply String.eqb_neq in Hne. by rewrite Hne.
Qed.

(** X23. A callback with a [code] and no [state] parameter at all is not
    refused by the state check: the subscript raises [KeyError "state"], and
    nothing is asked of the manager. *)
Theorem callback_code_without_state args st error code :
  args_get args "error" = inr error → str_truthy error = false →
  args_get args "code" = inr code → str_truthy code = true →
  args !! "state" = None →
  callback globals args st = (inl (Raised (KeyError (VStr "state"))), st).
Proof.
  intros Herr Herrf Hcode Hcodet Hstate.
  unfold callback, hbind, hlift, hret, hraise. rewrite Herr. simpl. rewrite Herrf, Hcode.
  simpl. rewrite Hcodet. unfold args_getitem. by rewrite Hstate.
Qed.

End Handlers.

End openid_connect_facts.

(** * The further properties on concrete data *)

Module More_scenarios.
Import Scenario Methods.
#[local] Existing Instance listing.

(** ** The orchestrator *)

Lemma unexpired_default_is_anon :
  let st := fresh listing None (Some Demo.bob) (Some Demo.client) Demo.world0 in
  let run := as_user (C:=listing) [resource; resource] None false None st in
  let anon := as_anon (C:=listing)
                (map (λ r, Demo.oauth2_authorize r Demo.bob) [resource; resource])
                None false st in
  oauth2_is_expired (Collaborators:=listing) Demo.bob (world st) = false ∧
  run.1 = anon.1 ∧ self run.2 = self anon.2 ∧ world run.2 = world anon.2 ∧
  user_creds (self run.2) = user_creds (self st).
Proof.
  split; [reflexivity|].
  apply (as_user_unexpired_is_anon_of_authorized (C:=listing)); reflexivity.
Defined.

Lemma stored_key_is_anon :
  let st := fresh listing (Some "stored-key") None None Demo.world0 in
  let run := as_api_key (C:=listing) [resource; resource] None false None st in
  let anon := as_anon (C:=listing)
                (map (λ r, Demo.api_key_authorize r "stored-key") [resource; resource])
                None false st in
  run.1 = anon.1 ∧ self run.2 = self anon.2 ∧ world run.2 = world anon.2.
Proof. apply (as_api_key_is_anon_of_authorized (C:=listing)). reflexivity. Defined.

Lemma no_stored_key :
  let st := fresh listing None (Some Demo.bob) None Demo.world0 in
  as_api_key (C:=listing) [resource] None false (Some "explicit-key") st
  = (inl (TypeError "No API key found"), st).
Proof. apply (as_api_key_without_stored_key (C:=listing)). reflexivity. Defined.

(** Without client credentials the refresh of [Demo.alice] is rejected. *)
Lemma rejected_refresh :
  let st := fresh listing None (Some Demo.alice) None Demo.world0 in
  as_user (C:=listing) [resource] None false None st
  = (inl (AuthError "refresh rejected"),
     {| self := self st; world := Demo.world0;
        trace := trace st ++ [EvRefresh (C:=listing) Demo.alice None] |}).
Proof.
  apply (as_user_failed_refresh_changes_nothing (C:=listing) [resource] None false None
           (fresh listing None (Some Demo.alice) None Demo.world0) Demo.alice);
    reflexivity.
Defined.

Lemma empty_dictionary_is_no_argument :
  let st := fresh Dicts.collaborators None (Some [("access_token", "stored")]) None tt in
  user_creds_truthy (Collaborators:=Dicts.collaborators) [] = false ∧
  as_user (C:=Dicts.collaborators) ["r"] None false (Some []) st
  = as_user (C:=Dicts.collaborators) ["r"] None false None st.
Proof.
  split; [reflexivity|].
  apply (as_user_falsy_argument_uses_default (C:=Dicts.collaborators)). reflexivity.
Defined.

Lemma anonymous_returns_session_value :
  let st := fresh listing None None None Demo.world0 in
  ∃ v st',
    dispatch (C:=listing) Anonymous [resource; resource] (Some 30%Z) true st = (inr v, st') ∧
    ∃ s batch w, length batch = length [resource; resource] ∧
      last (trace st') = Some (EvSessionSend s batch (Some 30%Z) true) ∧
      session_send (Collaborators:=listing) s batch (Some 30%Z) true w = (inr v, world st').
Proof.
  eexists _, _. split; [vm_compute; reflexivity|].
  apply (dispatch_returns_what_session_returned (C:=listing) Anonymous
           [resource; resource] (Some 30%Z) true
           (fresh listing None None None Demo.world0)).
  vm_compute; reflexivity.
Defined.

(** ** Discovery *)

Lemma youtube_resolves_to_v3 :
  let st := fresh unwrapping None None None Demo.world0 in
  ∃ st1,
    (list_api (C:=unwrapping) (VStr "youtube") (VBool true) VNone st).2 = st1 ∧
    discover (C:=unwrapping) (VStr "youtube") VNone true st
    = discover (C:=unwrapping) (VStr "youtube") (VStr "v3") true st1.
Proof.
  eexists. split; [vm_compute; reflexivity|].
  eapply (discover_resolves_preferred_version (C:=unwrapping));
    [vm_compute; reflexivity|reflexivity|reflexivity|reflexivity|reflexivity|reflexivity|done].
Defined.

Lemma directory_without_items :
  let st := fresh Offline.collaborators None None None Demo.world0 in
  ∃ st1,
    list_api (C:=Offline.collaborators) (VStr "nosuchapi") (VBool true) VNone st
    = (inr Offline.empty_directory, st1) ∧
    discover (C:=Offline.collaborators) (VStr "nosuchapi") VNone true st
    = (inl (KeyError (VStr "items")), st1).
Proof.
  eexists. split; [vm_compute; reflexivity|].
  eapply (discover_directory_without_items (C:=Offline.collaborators)); reflexivity.
Defined.

Lemma lookup_of_a_name_that_is_no_string :
  let st := fresh listing None None None Demo.world0 in
  list_api (C:=listing) VNone VNone VNone st
  = (inl (ValueError "name must be a string"), logged st [EvApisList VNone VNone VNone]).
Proof. apply (list_api_invalid_request (C:=listing)). reflexivity. Defined.

Lemma youtube_v3_without_lookup :
  let st := fresh unwrapping None None None Demo.world0 in
  ∃ evs, trace (discover (C:=unwrapping) (VStr "youtube") (VStr "v3") true st).2
         = trace st ++ EvApisGetRest (VStr "youtube") (VStr "v3") false :: evs ∧
    Forall (λ e, is_transport e = true) evs.
Proof. apply (discover_with_version_skips_lookup (C:=unwrapping)). done. Defined.

(** ** Entering and leaving *)

Lemma send_after_exit :
  let st := {| self := {| active_session := Some 7%nat; api_key := None;
                          user_creds := None; client_creds := None |};
               world := Demo.world0; trace := [] |} in
  let st1 := (__aexit__ (C:=listing) st).2 in
  active_session (self st1) = Some 7%nat ∧
  trace (as_anon (C:=listing) [resource] None false st1).2
  = trace st ++ [EvSessionExit 7%nat; EvSessionSend 7%nat [resource] None false].
Proof. apply (dispatch_after_exit_reuses_session (C:=listing)). reflexivity. Defined.

Lemma refused_entry_keeps_session :
  let st := fresh Offline.collaborators None None None Demo.world0 in
  __aenter__ (C:=Offline.collaborators) st
  = (inl (HTTPError "connection refused"),
     {| self := set_active_session (C:=Offline.collaborators) (Some 0%nat) (self st);
        world := {| Demo.now := 2000; Demo.sessions_made := 1 |};
        trace := trace st ++ [EvSessionFactory (C:=Offline.collaborators) (inr 0%nat);
                              EvSessionEnter (C:=Offline.collaborators) 0%nat] |}).
Proof. eapply (aenter_failure_keeps_session (C:=Offline.collaborators)); reflexivity. Defined.

(** ** Session classes *)

Lemma first_offender_of_two :
  let cls := abc.mkPyClass "Blocking" [ {[ "send" := coroutine; "close" := plain ]} ] in
  abc.check_coros cls ([("send", coroutine)] ++ ("close", coroutine) :: [("open", coroutine)])
  = inl (RuntimeError "<function send> must be a coroutine").
Proof.
  apply (abc_more_facts.check_coros_reports_first_offender
           (abc.mkPyClass "Blocking" [ {[ "send" := coroutine; "close" := plain ]} ])
           [("send", coroutine)] "close" coroutine [("open", coroutine)] plain).
  - repeat constructor. by exists coroutine.
  - reflexivity.
  - reflexivity.
Defined.

Lemma class_without_send :
  let cls := abc.mkPyClass "Empty" [ {[ "close" := plain ]}; ∅ ] in
  abc.__new__ (λ c (_ : unit), inr (abc.cls_name c)) cls tt = inr "Empty".
Proof.
  apply (abc_more_facts.new_without_own_send_passes_check
           (λ c (_ : unit), inr (abc.cls_name c))).
  repeat constructor.
Defined.

Lemma plain_override_of_coroutine_base :
  abc.__new__ (λ c (_ : unit), inr (abc.cls_name c))
    (abc.mkPyClass "Child" [ {[ "send" := plain ]}; {[ "send" := coroutine ]} ]) tt
  = inl (RuntimeError "<function send> must be a coroutine").
Proof.
  apply (abc_more_facts.new_nearest_send_decides (λ c (_ : unit), inr (abc.cls_name c))
           "Child" {[ "send" := plain ]} [ {[ "send" := coroutine ]} ] plain tt).
  reflexivity.
Defined.

(** ** The example handlers *)

Lemma denied_with_code :
  let args : gmap string (list string) :=
    {[ "error" := ["access_denied"]; "code" := ["4/abc"]; "state" := ["S3CR3T"] ]} in
  openid_connect_example.callback openid_connect_example.demo_globals args
    openid_connect_example.idle
  = (inr (openid_connect_example.json (Some "access_denied") None),
     openid_connect_example.idle).
Proof.
  apply (openid_connect_facts.callback_error_takes_precedence
           (O:=openid_connect_example.counting)); done.
Defined.

Lemma forged_state :
  let args : gmap string (list string) :=
    {[ "code" := ["4/abc"]; "state" := ["forged"; "S3CR3T"] ]} in
  openid_connect_example.callback openid_connect_example.demo_globals args
    openid_connect_example.idle
  = (inl (openid_connect_example.ServerError "NO"), openid_connect_example.idle).
Proof.
  eapply (openid_connect_facts.callback_wrong_state_refused
            (O:=openid_connect_example.counting)); done.
Defined.

Lemma code_alone :
  let args : gmap string (list string) := {[ "code" := ["4/abc"] ]} in
  openid_connect_example.callback openid_connect_example.demo_globals args
    openid_connect_example.idle
  = (inl (openid_connect_example.Raised (KeyError (VStr "state"))),
     openid_connect_example.idle).
Proof.
  eapply (openid_connect_facts.callback_code_without_state
            (O:=openid_connect_example.counting)); done.
Defined.

(** A callback with the server's state: one exchange, unverified, then the
    user info. *)
Example granted :
  let args : gmap string (list string) := {[ "code" := ["4/abc"]; "state" := ["S3CR3T"] ]} in
  openid_connect_example.callback openid_connect_example.demo_globals args
    openid_connect_example.idle
  = (inr (openid_connect_example.text
            ("full_user_creds: token-for-4/abc" ++ openid_connect_example.newline
             ++ openid_connect_example.newline
             ++ "full_user_info: info-of-token-for-4/abc")%string),
     @openid_connect_example.mkHSt openid_connect_example.counting 1%nat
       [openid_connect_example.CallBuildUserCreds (O:=openid_connect_example.counting)
          (Some "4/abc") "client" "N0NC3" false;
        openid_connect_example.CallGetUserInfo (O:=openid_connect_example.counting)
          "token-for-4/abc"]).
Proof. reflexivity. Qed.

End More_scenarios.
